(** * contact-service: the send-email workflow

    A shallow embedding of the two [EmailService] implementations of the
    repository (direct SMTP through nodemailer, and the Zoho REST API), of
    the credential repository they consult, and of the part of PostgreSQL
    and of the mail transports that their behaviour depends on.

    The services are asynchronous TypeScript methods that mutate a database
    session, the service object's transport cache, and talk to the network.
    They are embedded in a state-and-exception monad [M] that also logs every
    external interaction, in the order in which it is issued.  Everything
    outside the repository (the database failing, the SMTP server, the Zoho
    endpoints, bcrypt) is an oracle of the environment [Env].

    The HTTP layer in front of the services (the middlewares and the two
    routes of routes/email.ts) is embedded in the same monad; the auth
    service and the e-mail pattern of zod are oracles of [HttpEnv]. *)

From Stdlib Require Import String List Bool Arith ZArith Lia Permutation Sorted.
Import ListNotations.
Open Scope string_scope.
Open Scope list_scope.

Set Implicit Arguments.

#[local] Arguments String.append : simpl never.

(** ** JavaScript values *)

(** A thrown value.  The services only ever look at
    [error instanceof Error ? error.message : 'Unknown error']. *)
Inductive Thrown : Type :=
| JsError (message : string)
| NonError.

Definition message_of (error : Thrown) : string :=
  match error with
  | JsError message => message
  | NonError => "Unknown error"
  end.

(** [new Error(prefix + (error instanceof Error ? error.message : 'Unknown error'))] *)
Definition wrap (prefix : string) (error : Thrown) : Thrown :=
  JsError (prefix ++ message_of error).

Definition Buffer := list Byte.byte.

(** [!s] for an optional string: [undefined] and [''] are falsy. *)
Definition falsy_string (s : option string) : bool :=
  match s with
  | None => true
  | Some s => String.eqb s ""
  end.

(** [!n] for an optional number: [undefined] and [0] are falsy. *)
Definition falsy_number (n : option Z) : bool :=
  match n with
  | None => true
  | Some n => Z.eqb n 0
  end.

(** [boolean | null | undefined]: an optional flag.  A column that is NULL
    is read as [null], which is not [undefined]. *)
Inductive OptionalBoolean : Type :=
| undefined
| null
| boolean (b : bool).

(** [a || b] on optional strings. *)
Definition or_else (a b : option string) : option string :=
  if falsy_string a then b else a.

(** [s || ''] *)
Definition or_empty (s : option string) : string :=
  match s with
  | Some s => s
  | None => ""
  end.

(** ** interfaces/Credential.ts *)

Inductive CommunicationType : Type := email | sms | whatsapp.

Definition CommunicationType_eqb (a b : CommunicationType) : bool :=
  match a, b with
  | email, email | sms, sms | whatsapp, whatsapp => true
  | _, _ => false
  end.

Record Credential : Type := {
  id : string;
  name : string;
  type : CommunicationType;
  apiKey : string;
  host : option string;
  port : option Z;
  secure : OptionalBoolean;
  username : string;
  password : string;
  createdAt : nat;
  updatedAt : nat
}.

(** A row of the [credentials] table of the auth database. *)
Record CredentialRow : Type := {
  row_id : string;
  row_name : string;
  row_type : CommunicationType;
  api_key : string;
  row_host : option string;
  row_port : option Z;
  row_secure : option bool;
  row_username : string;
  row_password : string;
  created_at : nat;
  updated_at : nat
}.

(** ** The message, as both services declare it *)

Inductive AttachmentContent : Type :=
| OfBuffer (b : Buffer)
| OfString (base64 : string).

Record EmailAttachment : Type := {
  filename : string;
  content : AttachmentContent;
  contentType : option string
}.

(** [string | string[]] *)
Inductive Recipients : Type :=
| One (address : string)
| Many (addresses : list string).

Record EmailMessage : Type := {
  to : string;
  subject : string;
  text : option string;
  html : option string;
  cc : option Recipients;
  bcc : option Recipients;
  replyTo : option string;
  attachments : option (list EmailAttachment);
  undeclared : list (string * string)
}.

(** [undeclared]: the own keys of the object that the interface does not
    declare, with their values.  The types are erased when the code runs,
    and the route hands on [req.body.message] as it came. *)
Definition own_key (key : string) (message : EmailMessage) : option string :=
  match find (fun entry => String.eqb (fst entry) key) (undeclared message) with
  | Some entry => Some (snd entry)
  | None => None
  end.

(** [r ? Array.isArray(r) ? r : [r] : null] *)
Definition recipient_array (r : option Recipients) : option (list string) :=
  match r with
  | None => None
  | Some (One address) => if String.eqb address "" then None else Some [address]
  | Some (Many addresses) => Some addresses
  end.

(** ** The outbox tables of the contact database *)

Record OutgoingMessage : Type := {
  om_id : nat;
  credential_id : string;
  om_type : string;
  recipient : string;
  om_cc : option (list string);
  om_bcc : option (list string);
  reply_to : option string;
  om_subject : string;
  body_text : option string;
  body_html : option string;
  status : string;
  error_message : option string;
  sent_at : option nat
}.

Record MessageAttachment : Type := {
  message_id : nat;
  ma_filename : string;
  content_type : option string;
  size_bytes : nat;
  ma_content : Buffer
}.

Record Tables : Type := {
  outgoing_messages : list OutgoingMessage;
  message_attachments : list MessageAttachment
}.

(** The statements the services send on their client.  An INSERT into
    [outgoing_messages] carries the values of the columns it lists; the
    store fills in [id] and leaves the other columns NULL. *)
Inductive Query : Type :=
| BEGIN
| COMMIT
| ROLLBACK
| INSERT_outgoing_messages (values : OutgoingMessage)
| INSERT_message_attachments (values : MessageAttachment)
| UPDATE_sent (id : nat)
| UPDATE_failed (id : nat) (error_message : string).

(** One pooled connection to the contact database: what is committed, the
    working copy of the open transaction if there is one, the number of
    statements issued on the client since it was checked out, and the
    value of CURRENT_TIMESTAMP. *)
Record Database : Type := {
  committed : Tables;
  session : option Tables;
  issued : nat;
  now : nat
}.

(** The tables a statement sees. *)
Definition visible (db : Database) : Tables :=
  match session db with
  | Some t => t
  | None => committed db
  end.

(** Outside a transaction block a statement commits on its own. *)
Definition write (f : Tables -> Tables) (db : Database) : Database :=
  match session db with
  | Some t =>
      {| committed := committed db; session := Some (f t);
         issued := issued db; now := now db |}
  | None =>
      {| committed := f (committed db); session := None;
         issued := issued db; now := now db |}
  end.

(** The store generates the id of a new row: one no row carries yet. *)
Definition fresh_id (rows : list OutgoingMessage) : nat :=
  S (list_max (map om_id rows)).

Definition with_id (i : nat) (r : OutgoingMessage) : OutgoingMessage :=
  {| om_id := i; credential_id := credential_id r; om_type := om_type r;
     recipient := recipient r; om_cc := om_cc r; om_bcc := om_bcc r;
     reply_to := reply_to r; om_subject := om_subject r;
     body_text := body_text r; body_html := body_html r;
     status := status r; error_message := error_message r;
     sent_at := sent_at r |}.

(** [SET status = 'sent', sent_at = CURRENT_TIMESTAMP] *)
Definition set_sent (at_ : nat) (r : OutgoingMessage) : OutgoingMessage :=
  {| om_id := om_id r; credential_id := credential_id r; om_type := om_type r;
     recipient := recipient r; om_cc := om_cc r; om_bcc := om_bcc r;
     reply_to := reply_to r; om_subject := om_subject r;
     body_text := body_text r; body_html := body_html r;
     status := "sent"; error_message := error_message r;
     sent_at := Some at_ |}.

(** [SET status = 'failed', error_message = $2] *)
Definition set_failed (msg : string) (r : OutgoingMessage) : OutgoingMessage :=
  {| om_id := om_id r; credential_id := credential_id r; om_type := om_type r;
     recipient := recipient r; om_cc := om_cc r; om_bcc := om_bcc r;
     reply_to := reply_to r; om_subject := om_subject r;
     body_text := body_text r; body_html := body_html r;
     status := "failed"; error_message := Some msg;
     sent_at := sent_at r |}.

(** [UPDATE outgoing_messages SET ... WHERE id = $1] *)
Definition update_where_id (i : nat) (f : OutgoingMessage -> OutgoingMessage)
    (t : Tables) : Tables :=
  {| outgoing_messages :=
       map (fun r => if Nat.eqb (om_id r) i then f r else r) (outgoing_messages t);
     message_attachments := message_attachments t |}.

Definition insert_message (r : OutgoingMessage) (t : Tables) : Tables :=
  {| outgoing_messages := outgoing_messages t ++ [r];
     message_attachments := message_attachments t |}.

Definition insert_attachment (a : MessageAttachment) (t : Tables) : Tables :=
  {| outgoing_messages := outgoing_messages t;
     message_attachments := message_attachments t ++ [a] |}.

(** What a statement that does not fail does to the connection, and the
    rows it returns ([RETURNING id]). *)
Definition execute (q : Query) (db : Database) : Database * list nat :=
  match q with
  | BEGIN =>
      ({| committed := committed db; session := Some (visible db);
          issued := issued db; now := now db |}, [])
  | COMMIT =>
      ({| committed := visible db; session := None;
          issued := issued db; now := now db |}, [])
  | ROLLBACK =>
      ({| committed := committed db; session := None;
          issued := issued db; now := now db |}, [])
  | INSERT_outgoing_messages values =>
      let i := fresh_id (outgoing_messages (visible db)) in
      (write (insert_message (with_id i values)) db, [i])
  | INSERT_message_attachments values =>
      (write (insert_attachment values) db, [])
  | UPDATE_sent i =>
      (write (update_where_id i (set_sent (now db))) db, [])
  | UPDATE_failed i msg =>
      (write (update_where_id i (set_failed msg)) db, [])
  end.

Definition count_statement (db : Database) : Database :=
  {| committed := committed db; session := session db;
     issued := S (issued db); now := now db |}.

(** A client freshly checked out of the pool, and one given back: neither
    carries a transaction. *)
Definition checkout (db : Database) : Database :=
  {| committed := committed db; session := None; issued := 0; now := now db |}.

(** ** The transports *)

(** The options object handed to [nodemailer.createTransport]; a
    transporter is determined by the options it was created with. *)
Record TransportOptions : Type := {
  opt_host : option string;
  opt_port : option Z;
  opt_secure : OptionalBoolean;
  auth_user : string;
  auth_pass : string
}.

Definition Transporter := TransportOptions.

Record ZohoAttachmentDetails : Type := {
  storeName : string;
  attachmentPath : string;
  attachmentName : string
}.

(** The JSON body of the Zoho send request. *)
Record ZohoSendRequest : Type := {
  fromAddress : string;
  toAddress : string;
  ccAddress : option Recipients;
  bccAddress : option Recipients;
  zoho_subject : string;
  zoho_content : option string;
  mailFormat : string;
  zoho_attachments : list ZohoAttachmentDetails
}.

(** What comes back from a Zoho listing endpoint: the first element of
    [response.data.data] restricted to what the caller reads, and
    [JSON.stringify(response.data)]. *)
Record ZohoResponse (A : Type) : Type := {
  first : option A;
  json : string
}.

(** ** The environment

    Everything the repository does not decide.  A database statement fails
    according to its position on the client; a failing statement raises and
    leaves the tables as they were. *)
Record Env : Type := {
  connect_fault : option Thrown;
  query_fault : nat -> option Thrown;
  auth_fault : string -> option Thrown;
  bcrypt_compare : string -> string -> Thrown + bool;
  Buffer_from_base64 : string -> Buffer;
  smtp_sendMail : Transporter -> string -> EmailMessage -> option Thrown;
  smtp_verify : Transporter -> option Thrown;
  zoho_token : string -> string -> Thrown + string;
  zoho_accounts : string -> Thrown + ZohoResponse string;
  zoho_upload :
    string -> string -> Buffer -> string -> Thrown + ZohoResponse ZohoAttachmentDetails;
  zoho_send : string -> string -> ZohoSendRequest -> option Thrown
}.

(** ** The state the services run in *)

(** The two private fields of [EmailService]. *)
Record EmailService : Type := {
  transporter : option Transporter;
  currentCredentialId : option string
}.

Record World : Type := {
  contact : Database;
  credentials : list CredentialRow;
  service : EmailService
}.

(** Every interaction with something outside the service object, logged
    when it is issued, whether it then succeeds or not. *)
Inductive Event : Type :=
| DbConnect
| DbQuery (q : Query)
| DbRelease
| AuthQuery (credentialId : string)
| CreateTransport (options : TransportOptions)
| SendMail (t : Transporter) (from : string) (message : EmailMessage)
| Verify (t : Transporter)
| ZohoToken (clientId clientSecret : string)
| ZohoAccounts (accessToken : string)
| ZohoUpload (accountId accessToken : string) (file : Buffer) (name : string)
| ZohoSend (accountId accessToken : string) (request : ZohoSendRequest).

(** ** The monad of asynchronous methods *)

Inductive Completion (A : Type) : Type :=
| Return (a : A)
| Throw (error : Thrown).

Arguments Return {A} a.
Arguments Throw {A} error.

Record Outcome (A : Type) : Type := {
  result : Completion A;
  final : World;
  events : list Event
}.

Definition M (A : Type) : Type := World -> Outcome A.

Definition ret {A} (a : A) : M A :=
  fun w => {| result := Return a; final := w; events := [] |}.

Definition throw {A} (error : Thrown) : M A :=
  fun w => {| result := Throw error; final := w; events := [] |}.

Definition bind {A B} (m : M A) (f : A -> M B) : M B :=
  fun w =>
    let o := m w in
    match result o with
    | Return a =>
        let o' := f a (final o) in
        {| result := result o'; final := final o';
           events := events o ++ events o' |}
    | Throw error =>
        {| result := Throw error; final := final o; events := events o |}
    end.

(** [try { m } catch (error) { handler }] *)
Definition try_catch {A} (m : M A) (handler : Thrown -> M A) : M A :=
  fun w =>
    let o := m w in
    match result o with
    | Return a => o
    | Throw error =>
        let o' := handler error (final o) in
        {| result := result o'; final := final o';
           events := events o ++ events o' |}
    end.

(** [try { m } finally { cleanup }]: a cleanup that throws replaces the
    completion of [m]. *)
Definition finally {A} (m : M A) (cleanup : M unit) : M A :=
  fun w =>
    let o := m w in
    let o' := cleanup (final o) in
    {| result := match result o' with
                 | Return _ => result o
                 | Throw error => Throw error
                 end;
       final := final o';
       events := events o ++ events o' |}.

Declare Scope monad_scope.
Delimit Scope monad_scope with monad.
Notation "x <- m ;; k" := (bind m (fun x => k))
  (at level 61, m at next level, right associativity) : monad_scope.
Notation "m ;; k" := (bind m (fun _ => k))
  (at level 61, right associativity) : monad_scope.
Open Scope monad_scope.

Definition emit (e : Event) : M unit :=
  fun w => {| result := Return tt; final := w; events := [e] |}.

Definition when (b : bool) (m : M unit) : M unit :=
  if b then m else ret tt.

(** [for (const x of xs) { await body(x) }] *)
Fixpoint for_of {A} (xs : list A) (body : A -> M unit) : M unit :=
  match xs with
  | [] => ret tt
  | x :: rest => body x ;; for_of rest body
  end.

(** [await Promise.all(ms)] over promises created in the order of the list.
    Every one of them is started; the whole rejects if one does.  Which
    rejection wins depends on timing, and the first in the list is taken. *)
Fixpoint Promise_all {A} (ms : list (M A)) : M (list A) :=
  match ms with
  | [] => ret []
  | m :: rest =>
      fun w =>
        let o := m w in
        let o' := Promise_all rest (final o) in
        {| result :=
             match result o, result o' with
             | Throw error, _ => Throw error
             | Return _, Throw error => Throw error
             | Return a, Return l => Return (a :: l)
             end;
           final := final o';
           events := events o ++ events o' |}
  end.

(** ** config/database.ts: the [pools.contact] client *)

Definition on_contact (f : Database -> Database) (w : World) : World :=
  {| contact := f (contact w); credentials := credentials w;
     service := service w |}.

(** [await this.db.connect()] *)
Definition db_connect (env : Env) : M unit :=
  fun w =>
    match connect_fault env with
    | Some error =>
        {| result := Throw error; final := w; events := [DbConnect] |}
    | None =>
        {| result := Return tt; final := on_contact checkout w;
           events := [DbConnect] |}
    end.

(** [await client.query(q)], giving [result.rows] *)
Definition client_query (env : Env) (q : Query) : M (list nat) :=
  fun w =>
    let db := contact w in
    match query_fault env (issued db) with
    | Some error =>
        {| result := Throw error; final := on_contact count_statement w;
           events := [DbQuery q] |}
    | None =>
        let '(db', rows) := execute q (count_statement db) in
        {| result := Return rows; final := on_contact (fun _ => db') w;
           events := [DbQuery q] |}
    end.

(** [client.release()] *)
Definition db_release : M unit :=
  fun w =>
    {| result := Return tt; final := on_contact checkout w;
       events := [DbRelease] |}.

(** [result.rows[0].id]: reading [id] off a missing row is a TypeError. *)
Definition first_id (rows : list nat) : M nat :=
  match rows with
  | i :: _ => ret i
  | [] => throw (JsError "Cannot read properties of undefined (reading 'id')")
  end.

(** ** repositories/CredentialRepository.ts *)

Module PostgresCredentialRepository.

Definition mapToCredential (row : CredentialRow) : Credential :=
  {| id := row_id row;
     name := row_name row;
     type := row_type row;
     apiKey := api_key row;
     host := row_host row;
     port := row_port row;
     secure := match row_secure row with
               | Some b => boolean b
               | None => null
               end;
     username := row_username row;
     password := row_password row;
     createdAt := created_at row;
     updatedAt := updated_at row |}.

(** The rows [WHERE id = $1] keeps. *)
Definition where_id (i : string) (rows : list CredentialRow) : list CredentialRow :=
  filter (fun row => String.eqb (row_id row) i) rows.

(** [await this.db.query('SELECT ... FROM credentials WHERE id = $1', [id])] *)
Definition select_where_id (env : Env) (i : string) : M (list CredentialRow) :=
  fun w =>
    match auth_fault env i with
    | Some error =>
        {| result := Throw error; final := w; events := [AuthQuery i] |}
    | None =>
        {| result := Return (where_id i (credentials w));
           final := w; events := [AuthQuery i] |}
    end.

(** [rows[0] ? this.mapToCredential(rows[0]) : null] *)
Definition first_credential (rows : list CredentialRow) : option Credential :=
  match rows with
  | row :: _ => Some (mapToCredential row)
  | [] => None
  end.

Definition findById (env : Env) (i : string) : M (option Credential) :=
  try_catch
    (rows <- select_where_id env i ;;
     ret (first_credential rows))
    (fun error => throw (wrap "Failed to find credential: " error)).

(** [compare] of bcrypt *)
Definition compare (env : Env) (data hash : string) : M bool :=
  match bcrypt_compare env data hash with
  | inl error => throw error
  | inr b => ret b
  end.

(** [return compare(...)] inside the [try] hands the promise of bcrypt
    back without awaiting it: what the promise rejects with is not caught,
    and reaches the caller as it is. *)
Definition validateApiKey (env : Env) (i apiKey_ : string) : M bool :=
  returned <-
    try_catch
      (rows <- select_where_id env i ;;
       match rows with
       | [] => ret (inl false)
       | row :: _ => ret (inr (compare env apiKey_ (api_key row)))
       end)
      (fun error => throw (wrap "Failed to validate API key: " error)) ;;
  match returned with
  | inl verdict => ret verdict
  | inr promise => promise
  end.

(** [type] as it is passed to the query *)
Definition type_name (t : CommunicationType) : string :=
  match t with
  | email => "email"
  | sms => "sms"
  | whatsapp => "whatsapp"
  end.

(** The rows [WHERE type = $1] keeps. *)
Definition where_type (t : CommunicationType) (rows : list CredentialRow)
    : list CredentialRow :=
  filter (fun row => CommunicationType_eqb (row_type row) t) rows.

(** [ORDER BY created_at DESC]: each row goes before the first row that is
    older than it.  The query leaves the order of rows of one timestamp
    open; nothing proved below depends on the one chosen here. *)
Fixpoint place_by_created_at (row : CredentialRow) (sorted : list CredentialRow)
    : list CredentialRow :=
  match sorted with
  | [] => [row]
  | r :: rest =>
      if Nat.ltb (created_at r) (created_at row) then row :: r :: rest
      else r :: place_by_created_at row rest
  end.

Definition order_by_created_at_desc (rows : list CredentialRow) : list CredentialRow :=
  fold_right place_by_created_at [] rows.

(** [await this.db.query('SELECT * FROM credentials WHERE type = $1 ORDER BY
    created_at DESC', [type])]: a query on the auth pool, logged with its
    parameter. *)
Definition select_where_type (env : Env) (t : CommunicationType)
    : M (list CredentialRow) :=
  fun w =>
    match auth_fault env (type_name t) with
    | Some error =>
        {| result := Throw error; final := w; events := [AuthQuery (type_name t)] |}
    | None =>
        {| result := Return (order_by_created_at_desc (where_type t (credentials w)));
           final := w; events := [AuthQuery (type_name t)] |}
    end.

Definition findByType (env : Env) (t : CommunicationType) : M (list Credential) :=
  try_catch
    (rows <- select_where_type env t ;;
     ret (map mapToCredential rows))
    (fun error => throw (wrap "Failed to find credentials by type: " error)).

End PostgresCredentialRepository.

(** ** nodemailer *)

(** Reads and writes of the private fields of the service object. *)
Definition this_transporter : M (option Transporter) :=
  fun w => {| result := Return (transporter (service w)); final := w; events := [] |}.

Definition this_currentCredentialId : M (option string) :=
  fun w =>
    {| result := Return (currentCredentialId (service w)); final := w; events := [] |}.

Definition set_transporter (t : option Transporter) : M unit :=
  fun w =>
    {| result := Return tt;
       final := {| contact := contact w; credentials := credentials w;
                   service := {| transporter := t;
                                 currentCredentialId := currentCredentialId (service w) |} |};
       events := [] |}.

Definition set_currentCredentialId (i : option string) : M unit :=
  fun w =>
    {| result := Return tt;
       final := {| contact := contact w; credentials := credentials w;
                   service := {| transporter := transporter (service w);
                                 currentCredentialId := i |} |};
       events := [] |}.

(** [current !== credentialId] where [current] is [string | null]. *)
Definition differs (current : option string) (credentialId : string) : bool :=
  match current with
  | Some c => negb (String.eqb c credentialId)
  | None => true
  end.

(** [nodemailer.createTransport(options)]: builds the object; no connection
    is opened until it is used. *)
Definition createTransport (options : TransportOptions) : M Transporter :=
  emit (CreateTransport options) ;; ret options.

Definition transport_options (credential : Credential) : TransportOptions :=
  {| opt_host := host credential;
     opt_port := port credential;
     opt_secure := secure credential;
     auth_user := username credential;
     auth_pass := password credential |}.

(** [{ from: credential.username, ...message }]: the keys of the message
    come after [from] in the literal, so a [from] key of the message
    replaces the user name of the credential. *)
Definition mail_from (credential : Credential) (message : EmailMessage) : string :=
  match own_key "from" message with
  | Some value => value
  | None => username credential
  end.

(** [await t.sendMail(mail)], for the mail that has the keys of [message]
    and is sent from [from]. *)
Definition sendMail (env : Env) (t : option Transporter) (from : string)
    (message : EmailMessage) : M unit :=
  match t with
  | None => throw (JsError "Cannot read properties of null (reading 'sendMail')")
  | Some t =>
      emit (SendMail t from message) ;;
      match smtp_sendMail env t from message with
      | Some error => throw error
      | None => ret tt
      end
  end.

(** [await t.verify()] *)
Definition verify (env : Env) (t : Transporter) : M unit :=
  emit (Verify t) ;;
  match smtp_verify env t with
  | Some error => throw error
  | None => ret tt
  end.

(** The credential checks that [sendEmail] of the SMTP service and both
    [verifyConnection] methods start with. *)
Definition require_smtp (credential : option Credential) : M Credential :=
  match credential with
  | None => throw (JsError "Credential not found")
  | Some credential =>
      if negb (CommunicationType_eqb (type credential) email) then
        throw (JsError "Invalid credential type: not an email credential")
      else if falsy_string (host credential) || falsy_number (port credential)
              || match secure credential with
                 | undefined => true
                 | _ => false
                 end then
        throw (JsError "Invalid email credential: missing required SMTP configuration")
      else ret credential
  end.

(** [verifyConnection]: the two services have the same text. *)
Definition verifyConnection (env : Env) (credentialId : string) : M bool :=
  found <- PostgresCredentialRepository.findById env credentialId ;;
  credential <- require_smtp found ;;
  testTransporter <- createTransport (transport_options credential) ;;
  try_catch
    (verify env testTransporter ;; ret true)
    (fun error => throw (wrap "Failed to verify email connection: " error)).

(** [Buffer.isBuffer(c) ? c : Buffer.from(c, 'base64')] *)
Definition to_buffer (env : Env) (c : AttachmentContent) : Buffer :=
  match c with
  | OfBuffer b => b
  | OfString s => Buffer_from_base64 env s
  end.

(** [message.attachments] when it is present and not empty. *)
Definition attachment_list (message : EmailMessage) : list EmailAttachment :=
  match attachments message with
  | Some l => l
  | None => []
  end.

(** ** The SMTP service *)

Module Smtp.

(** The values of the INSERT *)
Definition pending_row (credentialId : string) (message : EmailMessage)
    : OutgoingMessage :=
  {| om_id := 0;
     credential_id := credentialId;
     om_type := "email";
     recipient := to message;
     om_cc := recipient_array (cc message);
     om_bcc := recipient_array (bcc message);
     reply_to := replyTo message;
     om_subject := subject message;
     body_text := text message;
     body_html := html message;
     status := "pending";
     error_message := None;
     sent_at := None |}.

Definition attachment_row (env : Env) (messageId : nat)
    (attachment : EmailAttachment) : MessageAttachment :=
  let content := to_buffer env (content attachment) in
  {| message_id := messageId;
     ma_filename := filename attachment;
     content_type := contentType attachment;
     size_bytes := length content;
     ma_content := content |}.

(** Insert initial message record *)
Definition insert_message_record (env : Env) (credentialId : string)
    (message : EmailMessage) : M nat :=
  insertResult <-
    client_query env (INSERT_outgoing_messages (pending_row credentialId message)) ;;
  first_id insertResult.

(** Insert attachments if any *)
Definition insert_attachments (env : Env) (messageId : nat)
    (message : EmailMessage) : M unit :=
  for_of (map (attachment_row env messageId) (attachment_list message))
    (fun attachment =>
       client_query env (INSERT_message_attachments attachment) ;; ret tt).

(** Get credential and validate *)
Definition get_credential (env : Env) (credentialId : string) : M Credential :=
  found <- PostgresCredentialRepository.findById env credentialId ;;
  require_smtp found.

(** Create or update transporter if needed *)
Definition update_transporter (credentialId : string) (credential : Credential)
    : M unit :=
  current <- this_currentCredentialId ;;
  when (differs current credentialId)
    (t <- createTransport (transport_options credential) ;;
     set_transporter (Some t) ;;
     set_currentCredentialId (Some credentialId)).

(** Send email: the inner [try]/[catch] *)
Definition send (env : Env) (messageId : nat) (credential : Credential)
    (message : EmailMessage) : M unit :=
  try_catch
    (t <- this_transporter ;;
     sendMail env t (mail_from credential message) message ;;
     client_query env (UPDATE_sent messageId) ;;
     client_query env COMMIT ;;
     ret tt)
    (fun error =>
       client_query env (UPDATE_failed messageId (message_of error)) ;;
       client_query env COMMIT ;;
       throw error).

Definition sendEmail (env : Env) (credentialId : string) (message : EmailMessage)
    : M unit :=
  db_connect env ;;
  finally
    (try_catch
       (client_query env BEGIN ;;
        messageId <- insert_message_record env credentialId message ;;
        insert_attachments env messageId message ;;
        credential <- get_credential env credentialId ;;
        update_transporter credentialId credential ;;
        send env messageId credential message)
       (fun error =>
          client_query env ROLLBACK ;;
          throw (wrap "Failed to send email: " error)))
    db_release.

Definition verifyConnection := verifyConnection.

End Smtp.

(** ** The Zoho service *)

Module Zoho.

Definition getZohoAccessToken (env : Env) (clientId clientSecret : string)
    : M string :=
  try_catch
    (emit (ZohoToken clientId clientSecret) ;;
     match zoho_token env clientId clientSecret with
     | inl error => throw error
     | inr access_token => ret access_token
     end)
    (fun error => throw (wrap "Failed to get Zoho access token: " error)).

Definition getZohoAccountId (env : Env) (accessToken : string) : M string :=
  try_catch
    (emit (ZohoAccounts accessToken) ;;
     match zoho_accounts env accessToken with
     | inl error => throw error
     | inr response =>
         if falsy_string (first response) then
           throw (JsError ("No Zoho account found in response: " ++ json response))
         else
           match first response with
           | Some accountId => ret accountId
           | None => ret ""
           end
     end)
    (fun error => throw (wrap "Failed to get Zoho account ID: " error)).

Definition uploadAttachment (env : Env) (accountId accessToken : string)
    (file : Buffer) (name_ : string) : M ZohoAttachmentDetails :=
  try_catch
    (emit (ZohoUpload accountId accessToken file name_) ;;
     match zoho_upload env accountId accessToken file name_ with
     | inl error => throw error
     | inr response =>
         match first response with
         | None => throw (JsError ("Invalid upload response: " ++ json response))
         | Some details => ret details
         end
     end)
    (fun error => throw (wrap "Failed to upload attachment: " error)).

(** The values of the INSERT: it lists neither cc, bcc nor reply_to. *)
Definition pending_row (credentialId : string) (message : EmailMessage)
    : OutgoingMessage :=
  {| om_id := 0;
     credential_id := credentialId;
     om_type := "email";
     recipient := to message;
     om_cc := None;
     om_bcc := None;
     reply_to := None;
     om_subject := subject message;
     body_text := Some (or_empty (text message));
     body_html := Some (or_empty (html message));
     status := "pending";
     error_message := None;
     sent_at := None |}.

Definition send_request (credential : Credential) (message : EmailMessage)
    (attachmentDetails : list ZohoAttachmentDetails) : ZohoSendRequest :=
  {| fromAddress := name credential;
     toAddress := to message;
     ccAddress := cc message;
     bccAddress := bcc message;
     zoho_subject := subject message;
     zoho_content := or_else (html message) (text message);
     mailFormat := if falsy_string (html message) then "plaintext" else "html";
     zoho_attachments :=
       map (fun detail =>
              {| storeName := storeName detail;
                 attachmentPath := attachmentPath detail;
                 attachmentName := attachmentName detail |})
           attachmentDetails |}.

(** [await axios.post(`.../accounts/${accountId}/messages`, request, ...)] *)
Definition post_message (env : Env) (accountId accessToken : string)
    (request : ZohoSendRequest) : M unit :=
  emit (ZohoSend accountId accessToken request) ;;
  match zoho_send env accountId accessToken request with
  | Some error => throw error
  | None => ret tt
  end.

(** Create message record first *)
Definition create_message_record (env : Env) (credentialId : string)
    (message : EmailMessage) : M nat :=
  messageResult <-
    client_query env (INSERT_outgoing_messages (pending_row credentialId message)) ;;
  first_id messageResult.

(** Get credential and validate *)
Definition get_credential (env : Env) (credentialId : string) : M Credential :=
  found <- PostgresCredentialRepository.findById env credentialId ;;
  match found with
  | None => throw (JsError "Credential not found")
  | Some credential => ret credential
  end.

(** Handle attachments first if they exist *)
Definition upload_attachments (env : Env) (accountId accessToken : string)
    (message : EmailMessage) : M (list ZohoAttachmentDetails) :=
  Promise_all
    (map (fun attachment =>
            uploadAttachment env accountId accessToken
              (to_buffer env (content attachment)) (filename attachment))
         (attachment_list message)).

Definition sendEmail (env : Env) (credentialId : string) (message : EmailMessage)
    : M unit :=
  db_connect env ;;
  finally
    (try_catch
       (client_query env BEGIN ;;
        messageId <- create_message_record env credentialId message ;;
        credential <- get_credential env credentialId ;;
        accessToken <-
          getZohoAccessToken env (username credential) (password credential) ;;
        accountId <- getZohoAccountId env accessToken ;;
        attachmentDetails <- upload_attachments env accountId accessToken message ;;
        post_message env accountId accessToken
          (send_request credential message attachmentDetails) ;;
        client_query env (UPDATE_sent messageId) ;;
        client_query env COMMIT ;;
        ret tt)
       (fun error =>
          client_query env ROLLBACK ;;
          throw (wrap "Failed to send email: " error)))
    db_release.

Definition verifyConnection := verifyConnection.

End Zoho.

(** ** The HTTP layer *)

(** A request header as Node hands it over: [string | string[]]. *)
Inductive HeaderValue : Type :=
| Single (value : string)
| Several (values : list string).

(** [!h] for [string | string[] | undefined]: an array is truthy. *)
Definition falsy_header (h : option HeaderValue) : bool :=
  match h with
  | None => true
  | Some (Single value) => String.eqb value ""
  | Some (Several _) => false
  end.

(** [response.data] of the auth service. *)
Record ServiceInfo : Type := {
  service_id : string;
  service_name : string;
  allowedServices : list string
}.

(** What the handlers read of a request: three headers, the two fields of
    the JSON body, and [req.service]. *)
Record Request : Type := {
  x_api_key : option HeaderValue;
  x_service_name : option HeaderValue;
  x_credential_key : option HeaderValue;
  body_credentialId : option string;
  body_message : option EmailMessage;
  req_service : option ServiceInfo
}.

(** The JSON bodies the handlers answer with.  The [details] of a
    rejected message are the issues zod lists, which are not modelled. *)
Inductive Json : Type :=
| error_json (error : string)
| invalid_message_json
| message_json (message : string)
| valid_json (valid : bool).

(** [res.status(code).json(body)] *)
Record Response : Type := {
  status_code : nat;
  json_body : Json
}.

(** A middleware answers, or calls [next()]. *)
Inductive Handled : Type :=
| Responded (response : Response)
| Next (req : Request).

(** What an axios call that throws is asked:
    [axios.isAxiosError(error)] and [error.response?.status]. *)
Record AxiosFailure : Type := {
  isAxiosError : bool;
  response_status : option nat
}.

(** What the HTTP layer does not decide: the auth service, asked with the
    API key and the service name, and the e-mail pattern of zod. *)
Record HttpEnv : Type := {
  auth_service : HeaderValue -> HeaderValue -> AxiosFailure + ServiceInfo;
  zod_email : string -> bool
}.

Definition respond (code : nat) (body : Json) : M Handled :=
  ret (Responded {| status_code := code; json_body := body |}).

(** [error instanceof Error ? error.message : fallback] *)
Definition message_or (fallback : string) (error : Thrown) : string :=
  match error with
  | JsError message => message
  | NonError => fallback
  end.

(** The two [validateApiKey] middlewares differ in the header they read
    and in their texts. *)
Definition key_middleware (header : Request -> option HeaderValue)
    (required invalid failed : string) (env : Env) (req : Request) : M Handled :=
  let apiKey := header req in
  let credentialId := body_credentialId req in
  match apiKey with
  | Some (Single key) =>
      if String.eqb key "" then
        respond 401 (error_json required)
      else if falsy_string credentialId then
        respond 400 (error_json "Credential ID is required")
      else
        try_catch
          (isValid <-
             PostgresCredentialRepository.validateApiKey env
               (or_empty credentialId) key ;;
           if negb isValid then respond 401 (error_json invalid)
           else ret (Next req))
          (fun error => respond 500 (error_json (message_or failed error)))
  | _ => respond 401 (error_json required)
  end.

(** middleware/credentialAuth.ts *)
Module credentialAuth.

Definition validateApiKey : Env -> Request -> M Handled :=
  key_middleware x_credential_key
    "Credential API key is required"
    "Invalid credential API key"
    "Credential API key validation failed".

End credentialAuth.

(** middleware/auth.ts *)
Module auth.

Definition validateApiKey : Env -> Request -> M Handled :=
  key_middleware x_api_key
    "API key is required"
    "Invalid API key"
    "API key validation failed".

(** [req.service = response.data] *)
Definition with_service (data : ServiceInfo) (req : Request) : Request :=
  {| x_api_key := x_api_key req;
     x_service_name := x_service_name req;
     x_credential_key := x_credential_key req;
     body_credentialId := body_credentialId req;
     body_message := body_message req;
     req_service := Some data |}.

Definition serviceAuth (http : HttpEnv) (req : Request) : M Handled :=
  match x_api_key req, x_service_name req with
  | Some apiKey, Some serviceName =>
      if falsy_header (Some apiKey) || falsy_header (Some serviceName) then
        respond 401 (error_json "Missing authentication credentials")
      else
        match auth_service http apiKey serviceName with
        | inr data => ret (Next (with_service data req))
        | inl error =>
            if isAxiosError error
               && match response_status error with
                  | Some code => Nat.eqb code 401
                  | None => false
                  end
            then respond 401 (error_json "Invalid authentication credentials")
            else respond 500 (error_json "Authentication failed")
        end
  | _, _ => respond 401 (error_json "Missing authentication credentials")
  end.

End auth.

(** [s.includes(needle)] *)
Fixpoint includes (needle s : string) : bool :=
  String.prefix needle s ||
  match s with
  | EmptyString => false
  | String _ rest => includes needle rest
  end.

(** routes/email.ts *)
Module email_routes.

(** The refinement of [filename] *)
Definition safe_filename (name_ : string) : bool :=
  negb (includes ".." name_) && negb (includes "/" name_)
  && negb (includes "\" name_).

(** The schema of [content]: a Buffer, or a string whose base64 decoding
    has at most 10 MiB. *)
Definition content_ok (env : Env) (c : AttachmentContent) : bool :=
  match c with
  | OfBuffer _ => true
  | OfString s =>
      Z.leb (Z.of_nat (length (Buffer_from_base64 env s))) (10 * 1024 * 1024)
  end.

(** [z.union([z.string().email(), z.array(z.string().email())]).optional()] *)
Definition recipients_ok (http : HttpEnv) (r : option Recipients) : bool :=
  match r with
  | None => true
  | Some (One address) => zod_email http address
  | Some (Many addresses) => forallb (zod_email http) addresses
  end.

(** Whether [emailMessageSchema.parse(message)] goes through, for a
    message of the shape of [EmailMessage]. *)
Definition emailMessageSchema (http : HttpEnv) (env : Env) (message : EmailMessage)
    : bool :=
  zod_email http (to message)
  && negb (String.eqb (subject message) "")
  && recipients_ok http (cc message)
  && recipients_ok http (bcc message)
  && match replyTo message with
     | None => true
     | Some address => zod_email http address
     end
  && match attachments message with
     | None => true
     | Some l =>
         forallb (fun attachment =>
                    safe_filename (filename attachment)
                    && content_ok env (content attachment)) l
         && Nat.leb (length l) 5
     end
  && (negb (falsy_string (text message)) || negb (falsy_string (html message))).

(** Express runs the handlers of a route in turn, as long as they call
    [next()]. *)
Definition and_then (first : M Handled) (rest : Request -> M Response)
    : M Response :=
  handled <- first ;;
  match handled with
  | Responded response => ret response
  | Next req => rest req
  end.

Definition answer (code : nat) (body : Json) : M Response :=
  ret {| status_code := code; json_body := body |}.

Section Routes.

(** The two methods of the [EmailService] the routes import. *)
Variable sendEmail : Env -> string -> EmailMessage -> M unit.
Variable verifyConnection : Env -> string -> M bool.

(** The last handler of POST /send *)
Definition send_handler (http : HttpEnv) (env : Env) (req : Request) : M Response :=
  try_catch
    (if falsy_string (body_credentialId req) then
       answer 400 (error_json "Credential ID is required")
     else
       match body_message req with
       | None => answer 400 invalid_message_json
       | Some message =>
           if negb (emailMessageSchema http env message) then
             answer 400 invalid_message_json
           else
             sendEmail env (or_empty (body_credentialId req)) message ;;
             answer 200 (message_json "Email sent successfully")
       end)
    (fun error =>
       answer 500 (error_json (message_or "Failed to send email" error))).

(** The last handler of POST /verify *)
Definition verify_handler (env : Env) (req : Request) : M Response :=
  try_catch
    (if falsy_string (body_credentialId req) then
       answer 400 (error_json "Credential ID is required")
     else
       isValid <- verifyConnection env (or_empty (body_credentialId req)) ;;
       answer 200 (valid_json isValid))
    (fun error =>
       answer 500
         (error_json (message_or "Failed to verify email connection" error))).

(** [router.post('/send', serviceAuth, validateApiKey, ...)] *)
Definition post_send (http : HttpEnv) (env : Env) (req : Request) : M Response :=
  and_then (auth.serviceAuth http req)
    (fun req =>
       and_then (credentialAuth.validateApiKey env req) (send_handler http env)).

(** [router.post('/verify', serviceAuth, validateApiKey, ...)] *)
Definition post_verify (http : HttpEnv) (env : Env) (req : Request) : M Response :=
  and_then (auth.serviceAuth http req)
    (fun req =>
       and_then (credentialAuth.validateApiKey env req) (verify_handler env)).

End Routes.

End email_routes.

(** ** Vocabulary of the properties *)

(** The message is handed to the mail transport. *)
Definition is_dispatch (e : Event) : bool :=
  match e with
  | SendMail _ _ _ | ZohoSend _ _ _ => true
  | _ => false
  end.

(** A call that leaves the host: SMTP or HTTPS.  The credential lookup is a
    local database query and [createTransport] opens no connection. *)
Definition is_network (e : Event) : bool :=
  match e with
  | SendMail _ _ _ | Verify _
  | ZohoToken _ _ | ZohoAccounts _ | ZohoUpload _ _ _ _ | ZohoSend _ _ _ => true
  | _ => false
  end.

(** Anything done on the contact database, where the outbox tables live. *)
Definition is_outbox (e : Event) : bool :=
  match e with
  | DbConnect | DbQuery _ | DbRelease => true
  | _ => false
  end.

Definition is_attachment_insert (e : Event) : bool :=
  match e with
  | DbQuery (INSERT_message_attachments _) => true
  | _ => false
  end.

Definition is_upload (e : Event) : bool :=
  match e with
  | ZohoUpload _ _ _ _ => true
  | _ => false
  end.

Definition is_construction (e : Event) : bool :=
  match e with
  | CreateTransport _ => true
  | _ => false
  end.

(** How many transports a run constructed. *)
Definition constructions (evs : list Event) : nat :=
  length (filter is_construction evs).

(** The service object never records a credential without a transporter:
    true of [new EmailService(...)] and kept by every method. *)
Definition cache_ok (s : EmailService) : bool :=
  match currentCredentialId s, transporter s with
  | Some _, None => false
  | _, _ => true
  end.

Definition new_EmailService : EmailService :=
  {| transporter := None; currentCredentialId := None |}.

(** The contact database answers: no connection or statement fails. *)
Definition storage_healthy (env : Env) : Prop :=
  connect_fault env = None /\ forall k, query_fault env k = None.

(** What [findById] finds when the auth database answers. *)
Definition stored (rows : list CredentialRow) (credentialId : string)
    : option Credential :=
  PostgresCredentialRepository.first_credential
    (PostgresCredentialRepository.where_id credentialId rows).

(** What other sessions can see of the outbox: the committed tables. *)
Definition persisted (w : World) : Tables := committed (contact w).

(** The step of the algorithm of the send orchestrator (section 4.1 of the
    specification) an event belongs to: 1 acquire the transaction, 2 insert
    the pending row, 3 persist or stage attachments, 4 resolve the
    credential, 5 resolve the transport (for the provider API: the OAuth
    exchange and the account lookup), 6 dispatch, 7 record the outcome and
    commit, 8 roll back; giving the client back ends the call. *)
Definition step_4_1 (e : Event) : nat :=
  match e with
  | Verify _ => 0
  | DbConnect | DbQuery BEGIN => 1
  | DbQuery (INSERT_outgoing_messages _) => 2
  | DbQuery (INSERT_message_attachments _) | ZohoUpload _ _ _ _ => 3
  | AuthQuery _ => 4
  | CreateTransport _ | ZohoToken _ _ | ZohoAccounts _ => 5
  | SendMail _ _ _ | ZohoSend _ _ _ => 6
  | DbQuery (UPDATE_sent _) | DbQuery (UPDATE_failed _ _) | DbQuery COMMIT => 7
  | DbQuery ROLLBACK => 8
  | DbRelease => 9
  end.

(** The same steps in the order the Zoho service takes them: the credential
    and the OAuth token come before the attachments are staged. *)
Definition zoho_order (e : Event) : nat :=
  match step_4_1 e with
  | 3 => 5
  | 4 => 3
  | 5 => 4
  | n => n
  end.

Fixpoint ascending (l : list nat) : bool :=
  match l with
  | a :: (b :: _) as rest => Nat.leb a b && ascending rest
  | _ => true
  end.

(** The events come in the order of their steps. *)
Definition in_order (step : Event -> nat) (evs : list Event) : Prop :=
  ascending (map step evs) = true.

Definition is_Return {A} (r : Completion A) : bool :=
  match r with
  | Return _ => true
  | Throw _ => false
  end.

(** Work on the two databases only. *)
Definition is_local (e : Event) : bool :=
  match e with
  | DbConnect | DbQuery _ | DbRelease | AuthQuery _ => true
  | _ => false
  end.

Definition no_dispatch {A} (o : Outcome A) : Prop :=
  existsb is_dispatch (events o) = false.

(** A run that reaches the network began by opening the transaction and
    inserting the pending row, and that INSERT went through. *)
Definition pending_first (env : Env) (evs : list Event) : Prop :=
  existsb is_network evs = true ->
  exists values rest,
    evs = DbConnect :: DbQuery BEGIN :: DbQuery (INSERT_outgoing_messages values) :: rest /\
    status values = "pending" /\
    query_fault env 1 = None.

(** The credential passes the checks of the SMTP service. *)
Definition smtp_usable (c : Credential) : Prop :=
  type c = email /\ falsy_string (host c) = false /\
  falsy_number (port c) = false /\ secure c <> undefined.

(** The SMTP server takes the message, whichever transporter carries it. *)
Definition smtp_accepts (env : Env) (c : Credential) (message : EmailMessage) : Prop :=
  forall t, smtp_sendMail env t (mail_from c message) message = None.

Definition smtp_rejects (env : Env) (c : Credential) (message : EmailMessage)
    (error : Thrown) : Prop :=
  forall t, smtp_sendMail env t (mail_from c message) message = Some error.

Definition upload_ok (env : Env) (accountId accessToken : string)
    (attachment : EmailAttachment) : Prop :=
  exists details j,
    zoho_upload env accountId accessToken
      (to_buffer env (content attachment)) (filename attachment)
    = inr {| first := Some details; json := j |}.

(** Zoho hands out a token and an account for the credential and stores
    every attachment of the message. *)
Definition zoho_ready (env : Env) (c : Credential) (message : EmailMessage)
    (accessToken accountId : string) : Prop :=
  zoho_token env (username c) (password c) = inr accessToken /\
  (exists j,
      zoho_accounts env accessToken = inr {| first := Some accountId; json := j |}) /\
  falsy_string (Some accountId) = false /\
  forall attachment, In attachment (attachment_list message) ->
                     upload_ok env accountId accessToken attachment.

(** The row a call inserts, as the store numbers it. *)
Definition smtp_row_of (w : World) (credentialId : string) (message : EmailMessage)
    : OutgoingMessage :=
  with_id (fresh_id (outgoing_messages (persisted w)))
    (Smtp.pending_row credentialId message).

Definition zoho_row_of (w : World) (credentialId : string) (message : EmailMessage)
    : OutgoingMessage :=
  with_id (fresh_id (outgoing_messages (persisted w)))
    (Zoho.pending_row credentialId message).

(** The outbox after a call of the SMTP service that recorded an outcome
    [f] on its row. *)
Definition smtp_recorded (env : Env) (w : World) (credentialId : string)
    (message : EmailMessage) (f : OutgoingMessage -> OutgoingMessage) : Tables :=
  {| outgoing_messages :=
       outgoing_messages (persisted w) ++ [f (smtp_row_of w credentialId message)];
     message_attachments :=
       message_attachments (persisted w) ++
       map (Smtp.attachment_row env (om_id (smtp_row_of w credentialId message)))
           (attachment_list message) |}.

Definition zoho_recorded (w : World) (credentialId : string)
    (message : EmailMessage) : Tables :=
  {| outgoing_messages :=
       outgoing_messages (persisted w) ++
       [set_sent (now (contact w)) (zoho_row_of w credentialId message)];
     message_attachments := message_attachments (persisted w) |}.

(** The cache once the resolver has built a transporter for a credential. *)
Definition rebuilt (credentialId : string) (c : Credential) : EmailService :=
  {| transporter := Some (transport_options c);
     currentCredentialId := Some credentialId |}.

(** One more row in [outgoing_messages], committed, with status sent and
    its sent timestamp. *)
Definition sent_recorded (w : World) (o : Outcome unit) : Prop :=
  result o = Return tt /\
  (exists row,
      outgoing_messages (persisted (final o))
      = outgoing_messages (persisted w) ++ [row] /\
      status row = "sent" /\ sent_at row = Some (now (contact w))) /\
  session (contact (final o)) = None.

(** One more row, committed, with status failed and the text of the error;
    one dispatch was attempted, and the caller gets the error wrapped. *)
Definition failure_recorded (w : World) (error : Thrown) (o : Outcome unit) : Prop :=
  result o = Throw (wrap "Failed to send email: " error) /\
  (exists row,
      outgoing_messages (persisted (final o))
      = outgoing_messages (persisted w) ++ [row] /\
      status row = "failed" /\ error_message row = Some (message_of error)) /\
  session (contact (final o)) = None /\
  length (filter is_dispatch (events o)) = 1.







(** Two calls agree: both succeed or both fail, and they leave the same
    outbox. *)
Definition agree (o1 o2 : Outcome unit) : Prop :=
  is_Return (result o1) = is_Return (result o2) /\
  persisted (final o1) = persisted (final o2).

(** Two rows agree on what both services write. *)
Definition same_core (r1 r2 : OutgoingMessage) : Prop :=
  om_id r1 = om_id r2 /\ credential_id r1 = credential_id r2 /\
  om_type r1 = om_type r2 /\ recipient r1 = recipient r2 /\
  om_subject r1 = om_subject r2 /\ status r1 = status r2 /\
  sent_at r1 = sent_at r2 /\ error_message r1 = error_message r2.

(** Whatever the environment does, the events of [m] come in the order of
    their steps, which lie between [lo] and [hi]. *)
Definition paced {A} (step : Event -> nat) (lo hi : nat) (m : M A) : Prop :=
  forall w,
    in_order step (events (m w)) /\
    Forall (fun e => (lo <= step e <= hi)%nat) (events (m w)).

(** ** The shapes of a call

    What a call of [sendEmail] can come to, by the point where it stops. *)

(** The error the outermost handler surfaces for [cause], unless its own
    ROLLBACK fails. *)
Definition surfaced (env : Env) (cause error : Thrown) : Prop :=
  error = wrap "Failed to send email: " cause \/
  exists k, query_fault env k = Some error.

(** Why a call of the SMTP service stops before it needs a transporter. *)
Inductive smtp_obstacle (env : Env) (rows : list CredentialRow)
    (credentialId : string) : Thrown -> Prop :=
| smtp_storage_fault k fault :
    query_fault env k = Some fault ->
    smtp_obstacle env rows credentialId fault
| smtp_lookup_fault fault :
    auth_fault env credentialId = Some fault ->
    smtp_obstacle env rows credentialId (wrap "Failed to find credential: " fault)
| smtp_unknown :
    auth_fault env credentialId = None ->
    stored rows credentialId = None ->
    smtp_obstacle env rows credentialId (JsError "Credential not found")
| smtp_wrong_type c :
    auth_fault env credentialId = None ->
    stored rows credentialId = Some c ->
    type c <> email ->
    smtp_obstacle env rows credentialId
      (JsError "Invalid credential type: not an email credential")
| smtp_incomplete c :
    auth_fault env credentialId = None ->
    stored rows credentialId = Some c ->
    type c = email ->
    falsy_string (host c) = true \/ falsy_number (port c) = true \/
    secure c = undefined ->
    smtp_obstacle env rows credentialId
      (JsError "Invalid email credential: missing required SMTP configuration").

(** The resolver: the events it issues, the transporter the send uses, and
    the cache it leaves. *)
Inductive smtp_resolved (sv : EmailService) (credentialId : string)
    (c : Credential) : list Event -> Transporter -> EmailService -> Prop :=
| resolved_cached t :
    differs (currentCredentialId sv) credentialId = false ->
    transporter sv = Some t ->
    smtp_resolved sv credentialId c [] t sv
| resolved_rebuilt :
    differs (currentCredentialId sv) credentialId = true ->
    smtp_resolved sv credentialId c
      [CreateTransport (transport_options c)] (transport_options c)
      (rebuilt credentialId c).

(** From the send on: the events that follow it, the completion of the
    call and the outbox it leaves. *)
Inductive smtp_ending (env : Env) (w : World) (credentialId : string)
    (message : EmailMessage) (c : Credential) (t : Transporter)
    : list Event -> Completion unit -> Tables -> Prop :=
| smtp_sent :
    smtp_sendMail env t (mail_from c message) message = None ->
    smtp_ending env w credentialId message c t
      [DbQuery (UPDATE_sent (om_id (smtp_row_of w credentialId message)));
       DbQuery COMMIT; DbRelease]
      (Return tt)
      (smtp_recorded env w credentialId message (set_sent (now (contact w))))
| smtp_failed error :
    smtp_sendMail env t (mail_from c message) message = Some error ->
    smtp_ending env w credentialId message c t
      [DbQuery (UPDATE_failed (om_id (smtp_row_of w credentialId message))
                  (message_of error));
       DbQuery COMMIT; DbQuery ROLLBACK; DbRelease]
      (Throw (wrap "Failed to send email: " error))
      (smtp_recorded env w credentialId message (set_failed (message_of error)))
| smtp_storage_lost k fault tail error tables :
    query_fault env k = Some fault ->
    forallb is_outbox tail = true ->
    smtp_ending env w credentialId message c t tail (Throw error) tables.

Inductive smtp_run (env : Env) (w : World) (credentialId : string)
    (message : EmailMessage) (o : Outcome unit) : Prop :=
| smtp_no_connection error :
    connect_fault env = Some error ->
    result o = Throw error ->
    final o = w ->
    events o = [DbConnect] ->
    smtp_run env w credentialId message o
| smtp_aborted cause error :
    connect_fault env = None ->
    result o = Throw error ->
    surfaced env cause error ->
    smtp_obstacle env (credentials w) credentialId cause ->
    persisted (final o) = persisted w ->
    service (final o) = service w ->
    forallb is_local (events o) = true ->
    smtp_run env w credentialId message o
| smtp_no_transporter c error :
    differs (currentCredentialId (service w)) credentialId = false ->
    transporter (service w) = None ->
    stored (credentials w) credentialId = Some c ->
    smtp_usable c ->
    result o = Throw error ->
    service (final o) = service w ->
    forallb is_local (events o) = true ->
    smtp_run env w credentialId message o
| smtp_dispatched c t inserts constructed tail :
    connect_fault env = None ->
    query_fault env 0 = None ->
    query_fault env 1 = None ->
    auth_fault env credentialId = None ->
    stored (credentials w) credentialId = Some c ->
    smtp_usable c ->
    forallb is_attachment_insert inserts = true ->
    smtp_resolved (service w) credentialId c constructed t (service (final o)) ->
    events o
    = DbConnect :: DbQuery BEGIN
      :: DbQuery (INSERT_outgoing_messages (Smtp.pending_row credentialId message))
      :: inserts ++ AuthQuery credentialId
      :: constructed ++ SendMail t (mail_from c message) message :: tail ->
    smtp_ending env w credentialId message c t tail
      (result o) (persisted (final o)) ->
    session (contact (final o)) = None ->
    smtp_run env w credentialId message o.

(** Why a call of the Zoho service stops between its INSERT and the send. *)
Inductive zoho_obstacle (env : Env) (rows : list CredentialRow)
    (credentialId : string) (message : EmailMessage) : Thrown -> Prop :=
| zoho_lookup_fault fault :
    auth_fault env credentialId = Some fault ->
    zoho_obstacle env rows credentialId message
      (wrap "Failed to find credential: " fault)
| zoho_unknown :
    auth_fault env credentialId = None ->
    stored rows credentialId = None ->
    zoho_obstacle env rows credentialId message (JsError "Credential not found")
| zoho_no_token c fault :
    stored rows credentialId = Some c ->
    zoho_token env (username c) (password c) = inl fault ->
    zoho_obstacle env rows credentialId message
      (wrap "Failed to get Zoho access token: " fault)
| zoho_no_account c accessToken cause :
    stored rows credentialId = Some c ->
    zoho_token env (username c) (password c) = inr accessToken ->
    (forall accountId j,
        zoho_accounts env accessToken = inr {| first := Some accountId; json := j |} ->
        falsy_string (Some accountId) = true) ->
    zoho_obstacle env rows credentialId message
      (wrap "Failed to get Zoho account ID: " cause)
| zoho_no_upload c accessToken accountId j cause :
    stored rows credentialId = Some c ->
    zoho_token env (username c) (password c) = inr accessToken ->
    zoho_accounts env accessToken = inr {| first := Some accountId; json := j |} ->
    ~ (forall attachment, In attachment (attachment_list message) ->
                          upload_ok env accountId accessToken attachment) ->
    zoho_obstacle env rows credentialId message cause.

Inductive zoho_ending (env : Env) (w : World) (credentialId : string)
    (message : EmailMessage) (accountId accessToken : string)
    (request : ZohoSendRequest)
    : list Event -> Completion unit -> Tables -> Prop :=
| zoho_sent :
    zoho_send env accountId accessToken request = None ->
    zoho_ending env w credentialId message accountId accessToken request
      [DbQuery (UPDATE_sent (om_id (zoho_row_of w credentialId message)));
       DbQuery COMMIT; DbRelease]
      (Return tt)
      (zoho_recorded w credentialId message)
| zoho_rejected cause error tail :
    zoho_send env accountId accessToken request = Some cause ->
    surfaced env cause error ->
    forallb is_outbox tail = true ->
    zoho_ending env w credentialId message accountId accessToken request
      tail (Throw error) (persisted w)
| zoho_storage_lost k fault error tail :
    zoho_send env accountId accessToken request = None ->
    query_fault env k = Some fault ->
    forallb is_outbox tail = true ->
    zoho_ending env w credentialId message accountId accessToken request
      tail (Throw error) (persisted w).

Inductive zoho_run (env : Env) (w : World) (credentialId : string)
    (message : EmailMessage) (o : Outcome unit) : Prop :=
| zoho_no_connection error :
    connect_fault env = Some error ->
    result o = Throw error ->
    final o = w ->
    events o = [DbConnect] ->
    zoho_run env w credentialId message o
| zoho_not_begun k fault error :
    query_fault env k = Some fault ->
    result o = Throw error ->
    persisted (final o) = persisted w ->
    forallb is_local (events o) = true ->
    zoho_run env w credentialId message o
| zoho_stopped cause error rest :
    connect_fault env = None ->
    query_fault env 0 = None ->
    query_fault env 1 = None ->
    result o = Throw error ->
    surfaced env cause error ->
    zoho_obstacle env (credentials w) credentialId message cause ->
    persisted (final o) = persisted w ->
    events o
    = DbConnect :: DbQuery BEGIN
      :: DbQuery (INSERT_outgoing_messages (Zoho.pending_row credentialId message))
      :: AuthQuery credentialId :: rest ->
    existsb is_dispatch rest = false ->
    zoho_run env w credentialId message o
| zoho_dispatched c accessToken accountId j uploads details tail :
    connect_fault env = None ->
    query_fault env 0 = None ->
    query_fault env 1 = None ->
    auth_fault env credentialId = None ->
    stored (credentials w) credentialId = Some c ->
    zoho_token env (username c) (password c) = inr accessToken ->
    zoho_accounts env accessToken = inr {| first := Some accountId; json := j |} ->
    forallb is_upload uploads = true ->
    events o
    = DbConnect :: DbQuery BEGIN
      :: DbQuery (INSERT_outgoing_messages (Zoho.pending_row credentialId message))
      :: AuthQuery credentialId
      :: ZohoToken (username c) (password c) :: ZohoAccounts accessToken
      :: uploads
         ++ ZohoSend accountId accessToken (Zoho.send_request c message details)
         :: tail ->
    zoho_ending env w credentialId message accountId accessToken
      (Zoho.send_request c message details) tail
      (result o) (persisted (final o)) ->
    session (contact (final o)) = None ->
    zoho_run env w credentialId message o.

(** ** Scenarios *)

(** An environment in which everything answers and accepts. *)
Definition env_ok : Env :=
  {| connect_fault := None;
     query_fault := fun _ => None;
     auth_fault := fun _ => None;
     bcrypt_compare := fun data hash => inr (String.eqb data hash);
     Buffer_from_base64 := fun _ => [];
     smtp_sendMail := fun _ _ _ => None;
     smtp_verify := fun _ => None;
     zoho_token := fun _ _ => inr "token";
     zoho_accounts := fun _ => inr {| first := Some "account"; json := "{}" |};
     zoho_upload := fun _ _ _ name_ =>
       inr {| first := Some {| storeName := "store"; attachmentPath := "/path";
                               attachmentName := name_ |};
              json := "{}" |};
     zoho_send := fun _ _ _ => None |}.

(** The same, but the mail transport rejects the message and the SMTP
    handshake fails. *)
Definition env_rejecting : Env :=
  {| connect_fault := None;
     query_fault := fun _ => None;
     auth_fault := fun _ => None;
     bcrypt_compare := fun data hash => inr (String.eqb data hash);
     Buffer_from_base64 := fun _ => [];
     smtp_sendMail := fun _ _ _ => Some (JsError "connect ECONNREFUSED");
     smtp_verify := fun _ => Some (JsError "connect ECONNREFUSED");
     zoho_token := fun _ _ => inr "token";
     zoho_accounts := fun _ => inr {| first := Some "account"; json := "{}" |};
     zoho_upload := fun _ _ _ name_ =>
       inr {| first := Some {| storeName := "store"; attachmentPath := "/path";
                               attachmentName := name_ |};
              json := "{}" |};
     zoho_send := fun _ _ _ => Some (JsError "Request failed with status code 500") |}.


(** A complete SMTP credential. *)
Definition smtp_row : CredentialRow :=
  {| row_id := "smtp-1"; row_name := "noreply@example.com"; row_type := email;
     api_key := "$2b$10$hash";
     row_host := Some "smtp.example.com"; row_port := Some 465%Z;
     row_secure := Some true;
     row_username := "noreply@example.com"; row_password := "secret";
     created_at := 0; updated_at := 0 |}.

(** A second complete SMTP credential. *)
Definition smtp_row_2 : CredentialRow :=
  {| row_id := "smtp-2"; row_name := "billing@example.com"; row_type := email;
     api_key := "$2b$10$hash2";
     row_host := Some "mail.example.com"; row_port := Some 587%Z;
     row_secure := Some false;
     row_username := "billing@example.com"; row_password := "secret2";
     created_at := 0; updated_at := 0 |}.

(** An email credential for the Zoho API: client id and secret, and no
    SMTP connection fields. *)
Definition zoho_row : CredentialRow :=
  {| row_id := "zoho-1"; row_name := "noreply@example.com"; row_type := email;
     api_key := "$2b$10$hash3";
     row_host := None; row_port := None; row_secure := None;
     row_username := "1000.CLIENTID"; row_password := "clientsecret";
     created_at := 0; updated_at := 0 |}.

Definition sms_row : CredentialRow :=
  {| row_id := "sms-1"; row_name := "alerts"; row_type := sms;
     api_key := "$2b$10$hash4";
     row_host := None; row_port := None; row_secure := None;
     row_username := "account"; row_password := "token";
     created_at := 0; updated_at := 0 |}.


(** A service that has just started on an empty outbox. *)
Definition world0 : World :=
  {| contact := {| committed := {| outgoing_messages := [];
                                   message_attachments := [] |};
                   session := None; issued := 0; now := 1000 |};
     credentials := [smtp_row; smtp_row_2; zoho_row; sms_row];
     service := new_EmailService |}.


Definition welcome : EmailMessage :=
  {| to := "user@example.com"; subject := "Welcome";
     text := Some "Hello"; html := None;
     cc := None; bcc := None; replyTo := None; attachments := None;
     undeclared := [] |}.

Definition welcome_attached : EmailMessage :=
  {| to := "user@example.com"; subject := "Welcome";
     text := Some "Hello"; html := None;
     cc := None; bcc := None; replyTo := None;
     attachments :=
       Some [ {| filename := "terms.pdf"; content := OfString "JVBERi0=";
                 contentType := Some "application/pdf" |} ];
     undeclared := [] |}.

(** A message whose object carries a [from] key of its own. *)
Definition welcome_from_ceo : EmailMessage :=
  {| to := "user@example.com"; subject := "Welcome";
     text := Some "Hello"; html := None;
     cc := None; bcc := None; replyTo := None; attachments := None;
     undeclared := [("from", "ceo@example.com")] |}.

(** ** Vocabulary of the further properties *)

(** Newest first. *)
Definition newest_first (l : list Credential) : Prop :=
  StronglySorted (fun a b => createdAt b <= createdAt a) l.

(** The same, of rows. *)
Definition rows_newest_first : list CredentialRow -> Prop :=
  StronglySorted (fun a b => created_at b <= created_at a).

(** Events of nodemailer, and events of the Zoho API. *)
Definition uses_smtp (e : Event) : bool :=
  match e with
  | CreateTransport _ | SendMail _ _ _ | Verify _ => true
  | _ => false
  end.

Definition uses_zoho (e : Event) : bool :=
  match e with
  | ZohoToken _ _ | ZohoAccounts _ | ZohoUpload _ _ _ _ | ZohoSend _ _ _ => true
  | _ => false
  end.

(** Checking a client out of the pool and giving it back. *)
Definition is_pool (e : Event) : bool :=
  match e with
  | DbConnect | DbRelease => true
  | _ => false
  end.

(** [m] leaves the part [f] of the world as it finds it. *)
Definition keeps {A X} (f : World -> X) (m : M A) : Prop :=
  forall w, f (final (m w)) = f w.

(** The committed outbox is that of [w] with one more message row, of the
    given status. *)
Definition one_more_row (w : World) (st : string) (tables : Tables) : Prop :=
  exists row,
    outgoing_messages tables = outgoing_messages (persisted w) ++ [row] /\
    status row = st.

(** Zoho stored the attachment and answered with this reference. *)
Definition staged_as (env : Env) (accountId accessToken : string)
    (attachment : EmailAttachment) (details : ZohoAttachmentDetails) : Prop :=
  exists j,
    zoho_upload env accountId accessToken
      (to_buffer env (content attachment)) (filename attachment)
    = inr {| first := Some details; json := j |}.

(** The life of the client in a call: if the pool gives none, the call
    throws what the pool threw and does nothing else; otherwise the call
    opens with BEGIN and gives the client back last, and exactly once. *)
Definition client_lifecycle (env : Env) (w : World) (o : Outcome unit) : Prop :=
  match connect_fault env with
  | Some fault => o = {| result := Throw fault; final := w; events := [DbConnect] |}
  | None =>
      exists rest,
        events o = DbConnect :: DbQuery BEGIN :: rest ++ [DbRelease] /\
        existsb is_pool rest = false
  end.

(** The credential key of a request is accepted: the request names the ID
    of a credential, the auth database answers, and the request carries,
    under [header], one nonempty key that bcrypt accepts for the hash of
    the first row of that ID. *)
Definition key_accepted (header : Request -> option HeaderValue) (env : Env)
    (w : World) (req : Request) (credentialId : string) : Prop :=
  exists key row rest,
    header req = Some (Single key) /\ key <> "" /\
    body_credentialId req = Some credentialId /\ credentialId <> "" /\
    auth_fault env credentialId = None /\
    PostgresCredentialRepository.where_id credentialId (credentials w) = row :: rest /\
    bcrypt_compare env key (api_key row) = inr true.

(** The auth service vouches for the caller of a request. *)
Definition vouched (http : HttpEnv) (req : Request) (data : ServiceInfo) : Prop :=
  exists apiKey serviceName,
    x_api_key req = Some apiKey /\ x_service_name req = Some serviceName /\
    falsy_header (Some apiKey) = false /\ falsy_header (Some serviceName) = false /\
    auth_service http apiKey serviceName = inr data.

(** An answer that refuses a request: one of [codes], with an error text. *)
Definition refusal (codes : list nat) (response : Response) : Prop :=
  In (status_code response) codes /\
  exists error, json_body response = error_json error.

(** What a key middleware does with a request: it hands on the request
    it was given when the key is accepted, and answers 400, 401 or 500
    when it is not. *)
Definition guards (header : Request -> option HeaderValue)
    (middleware : Env -> Request -> M Handled) : Prop :=
  forall env req w,
    let o := middleware env req w in
    final o = w /\
    ((exists credentialId,
         result o = Return (Next req) /\ key_accepted header env w req credentialId /\
         events o = [AuthQuery credentialId]) \/
     (exists response,
         result o = Return (Responded response) /\
         refusal [400; 401; 500] response /\
         (forall credentialId, ~ key_accepted header env w req credentialId) /\
         (events o = [] \/
          events o = [AuthQuery (or_empty (body_credentialId req))]))).

(** The two middlewares in front of both routes. *)
Definition guarded (http : HttpEnv) (env : Env) (w : World) (req : Request)
    (credentialId : string) : Prop :=
  (exists data, vouched http req data) /\
  key_accepted x_credential_key env w req credentialId.

(** A request that POST /send serves: it passes both middlewares, and its
    body holds a message that the schema accepts. *)
Definition servable (http : HttpEnv) (env : Env) (w : World) (req : Request)
    (credentialId : string) (message : EmailMessage) : Prop :=
  guarded http env w req credentialId /\
  body_message req = Some message /\
  email_routes.emailMessageSchema http env message = true.

(** A request that is answered before the service is called: with 400,
    401 or 500, the world as it was, and at most the query for the
    credential. *)
Definition turned_away (w : World) (req : Request) (o : Outcome Response) : Prop :=
  exists response,
    result o = Return response /\
    In (status_code response) [400; 401; 500] /\
    final o = w /\
    (events o = [] \/ events o = [AuthQuery (or_empty (body_credentialId req))]).

(** The answers of POST /send once [sendEmail] has been called. *)
Definition send_answer (r : Completion unit) : Response :=
  match r with
  | Return _ =>
      {| status_code := 200; json_body := message_json "Email sent successfully" |}
  | Throw error =>
      {| status_code := 500;
         json_body := error_json (message_or "Failed to send email" error) |}
  end.

(** The answers of POST /verify once [verifyConnection] has been called. *)
Definition verify_answer (r : Completion bool) : Response :=
  match r with
  | Return isValid => {| status_code := 200; json_body := valid_json isValid |}
  | Throw error =>
      {| status_code := 500;
         json_body :=
           error_json (message_or "Failed to verify email connection" error) |}
  end.

(** The limits the schema puts on an attachment. *)
Definition within_limits (env : Env) (attachment : EmailAttachment) : Prop :=
  email_routes.safe_filename (filename attachment) = true /\
  match content attachment with
  | OfBuffer _ => True
  | OfString s =>
      (Z.of_nat (length (Buffer_from_base64 env s)) <= 10 * 1024 * 1024)%Z
  end.

(** *** Requests *)

(** An auth service that vouches for every caller, and addresses taken
    for valid when they hold an at sign. *)
Definition http_ok : HttpEnv :=
  {| auth_service := fun _ _ =>
       inr {| service_id := "svc-1"; service_name := "orders";
              allowedServices := ["contact-service"] |};
     zod_email := includes "@" |}.

(** A request of the orders service to send [welcome_attached] with the
    first SMTP credential. *)
Definition request_smtp : Request :=
  {| x_api_key := Some (Single "service-key");
     x_service_name := Some (Single "orders");
     x_credential_key := Some (Single "$2b$10$hash");
     body_credentialId := Some "smtp-1";
     body_message := Some welcome_attached;
     req_service := None |}.

(** ** Runs *)

Unset Implicit Arguments.

(** [runs m w r w' evs]: started in [w], [m] completes with [r] in [w'],
    having issued [evs]. *)
Definition runs {A} (m : M A) (w : World) (r : Completion A) (w' : World)
    (evs : list Event) : Prop :=
  m w = {| result := r; final := w'; events := evs |}.

Lemma runs_total {A} (m : M A) w :
  runs m w (result (m w)) (final (m w)) (events (m w)).
Proof. unfold runs. destruct (m w); reflexivity. Qed.

Lemma runs_ret {A} (a : A) w r w' evs :
  runs (ret a) w r w' evs -> r = Return a /\ w' = w /\ evs = [].
Proof. unfold runs, ret. intros H. inversion H. auto. Qed.

Lemma runs_throw {A} error w (r : Completion A) w' evs :
  runs (throw error) w r w' evs -> r = Throw error /\ w' = w /\ evs = [].
Proof. unfold runs, throw. intros H. inversion H. auto. Qed.

Lemma runs_emit e w r w' evs :
  runs (emit e) w r w' evs -> r = Return tt /\ w' = w /\ evs = [e].
Proof. unfold runs, emit. intros H. inversion H. auto. Qed.

Lemma runs_bind {A B} (m : M A) (f : A -> M B) w r w' evs :
  runs (bind m f) w r w' evs ->
  (exists error, runs m w (Throw error) w' evs /\ r = Throw error) \/
  (exists a w1 evs1 evs2,
      runs m w (Return a) w1 evs1 /\ runs (f a) w1 r w' evs2 /\
      evs = evs1 ++ evs2).
Proof.
  unfold runs, bind. destruct (m w) as [[a | error] w1 evs1]; simpl; intros H.
  - right. exists a, w1, evs1, (events (f a w1)).
    inversion H; subst. split; [reflexivity | split; [|reflexivity]].
    destruct (f a w1); reflexivity.
  - left. exists error. inversion H; subst. auto.
Qed.

Lemma runs_try_catch {A} (m : M A) handler w r w' evs :
  runs (try_catch m handler) w r w' evs ->
  (exists a, runs m w (Return a) w' evs /\ r = Return a) \/
  (exists error w1 evs1 evs2,
      runs m w (Throw error) w1 evs1 /\ runs (handler error) w1 r w' evs2 /\
      evs = evs1 ++ evs2).
Proof.
  unfold runs, try_catch. destruct (m w) as [[a | error] w1 evs1]; simpl; intros H.
  - left. exists a. inversion H; subst. auto.
  - right. exists error, w1, evs1, (events (handler error w1)).
    inversion H; subst. split; [reflexivity | split; [|reflexivity]].
    destruct (handler error w1); reflexivity.
Qed.

Lemma runs_finally {A} (m : M A) cleanup w r w' evs :
  runs (finally m cleanup) w r w' evs ->
  exists r1 w1 evs1 r2 evs2,
    runs m w r1 w1 evs1 /\ runs cleanup w1 r2 w' evs2 /\
    evs = evs1 ++ evs2 /\
    r = match r2 with Return _ => r1 | Throw error => Throw error end.
Proof.
  unfold runs, finally. destruct (m w) as [r1 w1 evs1] eqn:Em; simpl.
  destruct (cleanup w1) as [r2 w2 evs2] eqn:Ec; simpl. intros H.
  inversion H; subst. exists r1, w1, evs1, r2, evs2. auto.
Qed.

Arguments runs : simpl never.

Lemma runs_db_connect env w r w' evs :
  runs (db_connect env) w r w' evs ->
  evs = [DbConnect] /\
  ((exists error, connect_fault env = Some error /\ r = Throw error /\ w' = w) \/
   (connect_fault env = None /\ r = Return tt /\ w' = on_contact checkout w)).
Proof.
  unfold runs, db_connect. destruct (connect_fault env) as [error|]; intros H;
    inversion H; subst; split; eauto.
Qed.

Lemma runs_client_query env q w r w' evs :
  runs (client_query env q) w r w' evs ->
  evs = [DbQuery q] /\
  ((exists error,
       query_fault env (issued (contact w)) = Some error /\ r = Throw error /\
       w' = on_contact count_statement w) \/
   (query_fault env (issued (contact w)) = None /\
    r = Return (snd (execute q (count_statement (contact w)))) /\
    w' = on_contact (fun _ => fst (execute q (count_statement (contact w)))) w)).
Proof.
  unfold runs, client_query.
  destruct (query_fault env (issued (contact w))) as [error|].
  - intros H; inversion H; subst; split; eauto.
  - destruct (execute q (count_statement (contact w))) as [db' rows].
    intros H; inversion H; subst; split; auto.
Qed.

Lemma runs_db_release w r w' evs :
  runs db_release w r w' evs ->
  r = Return tt /\ w' = on_contact checkout w /\ evs = [DbRelease].
Proof. unfold runs, db_release. intros H; inversion H; auto. Qed.

Lemma runs_this_transporter w r w' evs :
  runs this_transporter w r w' evs ->
  r = Return (transporter (service w)) /\ w' = w /\ evs = [].
Proof. unfold runs, this_transporter. intros H; inversion H; auto. Qed.

Lemma runs_this_currentCredentialId w r w' evs :
  runs this_currentCredentialId w r w' evs ->
  r = Return (currentCredentialId (service w)) /\ w' = w /\ evs = [].
Proof. unfold runs, this_currentCredentialId. intros H; inversion H; auto. Qed.

Lemma runs_set_transporter t w r w' evs :
  runs (set_transporter t) w r w' evs ->
  r = Return tt /\ evs = [] /\
  w' = {| contact := contact w; credentials := credentials w;
          service := {| transporter := t;
                        currentCredentialId := currentCredentialId (service w) |} |}.
Proof. unfold runs, set_transporter. intros H; inversion H; auto. Qed.

Lemma runs_set_currentCredentialId i w r w' evs :
  runs (set_currentCredentialId i) w r w' evs ->
  r = Return tt /\ evs = [] /\
  w' = {| contact := contact w; credentials := credentials w;
          service := {| transporter := transporter (service w);
                        currentCredentialId := i |} |}.
Proof. unfold runs, set_currentCredentialId. intros H; inversion H; auto. Qed.

Lemma runs_select_where_id env i w r w' evs :
  runs (PostgresCredentialRepository.select_where_id env i) w r w' evs ->
  w' = w /\ evs = [AuthQuery i] /\
  ((exists error, auth_fault env i = Some error /\ r = Throw error) \/
   (auth_fault env i = None /\
    r = Return (PostgresCredentialRepository.where_id i (credentials w)))).
Proof.
  unfold runs, PostgresCredentialRepository.select_where_id.
  destruct (auth_fault env i) as [error|]; intros H; inversion H; subst; eauto 6.
Qed.

(** One step of inversion of a run, by the shape of the program. *)
Ltac invert_run H :=
  lazymatch type of H with
  | runs (bind _ _) _ _ _ _ =>
      let H' := fresh "Hk" in
      apply runs_bind in H;
      destruct H as [(? & H & ?) | (? & ? & ? & ? & H & H' & ?)]
  | runs (try_catch _ _) _ _ _ _ =>
      let H' := fresh "Hh" in
      apply runs_try_catch in H;
      destruct H as [(? & H & ?) | (? & ? & ? & ? & H & H' & ?)]
  | runs (finally _ _) _ _ _ _ =>
      let H' := fresh "Hc" in
      apply runs_finally in H;
      destruct H as (? & ? & ? & ? & ? & H & H' & ? & ?)
  | runs (ret _) _ _ _ _ => apply runs_ret in H; destruct H as (? & ? & ?)
  | runs (throw _) _ _ _ _ => apply runs_throw in H; destruct H as (? & ? & ?)
  | runs (emit _) _ _ _ _ => apply runs_emit in H; destruct H as (? & ? & ?)
  | runs (db_connect _) _ _ _ _ =>
      apply runs_db_connect in H;
      destruct H as (? & [(? & ? & ? & ?) | (? & ? & ?)])
  | runs (client_query _ _) _ _ _ _ =>
      apply runs_client_query in H;
      destruct H as (? & [(? & ? & ? & ?) | (? & ? & ?)])
  | runs db_release _ _ _ _ => apply runs_db_release in H; destruct H as (? & ? & ?)
  | runs this_transporter _ _ _ _ =>
      apply runs_this_transporter in H; destruct H as (? & ? & ?)
  | runs this_currentCredentialId _ _ _ _ =>
      apply runs_this_currentCredentialId in H; destruct H as (? & ? & ?)
  | runs (set_transporter _) _ _ _ _ =>
      apply runs_set_transporter in H; destruct H as (? & ? & ?)
  | runs (set_currentCredentialId _) _ _ _ _ =>
      apply runs_set_currentCredentialId in H; destruct H as (? & ? & ?)
  | runs (PostgresCredentialRepository.select_where_id _ _) _ _ _ _ =>
      apply runs_select_where_id in H;
      destruct H as (? & ? & [(? & ? & ?) | (? & ?)])
  | runs (match ?x with _ => _ end) _ _ _ _ => destruct x eqn:?
  end.

Ltac tidy :=
  repeat match goal with
         | H : Return _ = Return _ |- _ => inversion H; clear H
         | H : Throw _ = Throw _ |- _ => inversion H; clear H
         | H : Return _ = Throw _ |- _ => discriminate H
         | H : Throw _ = Return _ |- _ => discriminate H
         | H : Some _ = Some _ |- _ => inversion H; clear H
         | H : Some _ = None |- _ => discriminate H
         | H : None = Some _ |- _ => discriminate H
         | H : inl _ = inl _ |- _ => inversion H; clear H
         | H : inr _ = inr _ |- _ => inversion H; clear H
         | H : inl _ = inr _ |- _ => discriminate H
         | H : inr _ = inl _ |- _ => discriminate H
         end;
  subst.

Ltac invert_runs :=
  repeat (match goal with
          | H : runs _ _ _ _ _ |- _ => invert_run H
          end; tidy).

(** *** The credential lookup *)

Lemma runs_findById env i w r w' evs :
  runs (PostgresCredentialRepository.findById env i) w r w' evs ->
  w' = w /\ evs = [AuthQuery i] /\
  ((exists error,
       auth_fault env i = Some error /\
       r = Throw (wrap "Failed to find credential: " error)) \/
   (auth_fault env i = None /\ r = Return (stored (credentials w) i))).
Proof.
  unfold PostgresCredentialRepository.findById, stored. intros H.
  invert_runs; rewrite ?app_nil_r; eauto 7.
Qed.

Lemma runs_require_smtp found w r w' evs :
  runs (require_smtp found) w r w' evs ->
  w' = w /\ evs = [] /\
  match r with
  | Return credential =>
      found = Some credential /\ type credential = email /\
      falsy_string (host credential) = false /\
      falsy_number (port credential) = false /\
      secure credential <> undefined
  | Throw error =>
      (found = None /\ error = JsError "Credential not found") \/
      (exists credential,
          found = Some credential /\ type credential <> email /\
          error = JsError "Invalid credential type: not an email credential") \/
      (exists credential,
          found = Some credential /\ type credential = email /\
          (falsy_string (host credential) = true \/
           falsy_number (port credential) = true \/
           secure credential = undefined) /\
          error =
            JsError "Invalid email credential: missing required SMTP configuration")
  end.
Proof.
  unfold require_smtp. intros H.
  destruct found as [credential|].
  - destruct (type credential) eqn:Et; simpl in H.
    + destruct (falsy_string (host credential)) eqn:Eh; simpl in H.
      { invert_runs. repeat split; auto. right; right. exists credential. auto. }
      destruct (falsy_number (port credential)) eqn:Ep; simpl in H.
      { invert_runs. repeat split; auto. right; right. exists credential. auto 6. }
      destruct (secure credential) eqn:Es.
      * invert_runs. repeat split; auto. right; right. exists credential. auto 6.
      * invert_runs. repeat split; auto. congruence.
      * invert_runs. repeat split; auto. congruence.
    + invert_runs. repeat split; auto. right; left. exists credential.
      repeat split; auto. congruence.
    + invert_runs. repeat split; auto. right; left. exists credential.
      repeat split; auto. congruence.
  - invert_runs. auto.
Qed.

(** Computing with the connection of a world. *)
Ltac simpl_world :=
  unfold on_contact, checkout, count_statement, write, visible in *; simpl in *.

(** *** The attachment loop of the SMTP service *)

(** Inside a transaction the loop only touches the working copy, and there
    only [message_attachments]; it stops at the first statement that fails. *)
Lemma runs_insert_rows env (rows : list MessageAttachment) :
  forall C t n N cr sv r w' evs,
    runs (for_of rows
            (fun attachment =>
               client_query env (INSERT_message_attachments attachment) ;; ret tt))
         {| contact := {| committed := C; session := Some t; issued := n; now := N |};
            credentials := cr; service := sv |} r w' evs ->
    exists t' n',
      w' = {| contact := {| committed := C; session := Some t'; issued := n';
                            now := N |};
              credentials := cr; service := sv |} /\
      outgoing_messages t' = outgoing_messages t /\
      forallb is_attachment_insert evs = true /\
      match r with
      | Return _ => message_attachments t' = message_attachments t ++ rows
      | Throw fault => exists k, query_fault env k = Some fault
      end.
Proof.
  induction rows as [|row rows IH]; intros C t n N cr sv r w' evs H; simpl in H.
  - invert_runs. exists t, n. rewrite app_nil_r. auto.
  - invert_run H; tidy.
    + invert_runs; simpl_world.
      exists t, (S n). repeat split; eauto.
    + invert_runs; simpl_world.
      apply IH in Hk. destruct Hk as (t' & n' & -> & Ho & He & Hr).
      exists t', n'. simpl in *. repeat split; auto.
      destruct r; auto. rewrite Hr, <- app_assoc. reflexivity.
Qed.

Lemma runs_insert_attachments env messageId message :
  forall C t n N cr sv r w' evs,
    runs (Smtp.insert_attachments env messageId message)
         {| contact := {| committed := C; session := Some t; issued := n; now := N |};
            credentials := cr; service := sv |} r w' evs ->
    exists t' n',
      w' = {| contact := {| committed := C; session := Some t'; issued := n';
                            now := N |};
              credentials := cr; service := sv |} /\
      outgoing_messages t' = outgoing_messages t /\
      forallb is_attachment_insert evs = true /\
      match r with
      | Return _ =>
          message_attachments t' =
          message_attachments t ++
          map (Smtp.attachment_row env messageId) (attachment_list message)
      | Throw fault => exists k, query_fault env k = Some fault
      end.
Proof. unfold Smtp.insert_attachments. intros. eapply runs_insert_rows; eauto. Qed.

(** *** The uploads of the Zoho service *)

Lemma runs_uploadAttachment env accountId accessToken file name_ w r w' evs :
  runs (Zoho.uploadAttachment env accountId accessToken file name_) w r w' evs ->
  w' = w /\ evs = [ZohoUpload accountId accessToken file name_] /\
  (forall details j,
      zoho_upload env accountId accessToken file name_
      = inr {| first := Some details; json := j |} ->
      r = Return details).
Proof.
  unfold Zoho.uploadAttachment. intros H.
  invert_runs; simpl in *; repeat split; auto; intros; rewrite H in *; tidy;
    simpl in *; congruence.
Qed.

Lemma runs_upload_all env accountId accessToken (l : list EmailAttachment) :
  forall w r w' evs,
    runs (Promise_all
            (map (fun attachment =>
                    Zoho.uploadAttachment env accountId accessToken
                      (to_buffer env (content attachment)) (filename attachment))
                 l)) w r w' evs ->
    w' = w /\ forallb is_upload evs = true /\
    ((forall attachment, In attachment l ->
                         upload_ok env accountId accessToken attachment) ->
     exists ds, r = Return ds).
Proof.
  induction l as [|a l IH]; intros w r w' evs H; simpl in H.
  - invert_runs. repeat split; eauto.
  - unfold runs in H.
    pose proof (runs_total
                  (Zoho.uploadAttachment env accountId accessToken
                     (to_buffer env (content a)) (filename a)) w) as Ha.
    apply runs_uploadAttachment in Ha. destruct Ha as (Ew & Ee & Hr).
    rewrite Ew in H.
    pose proof (runs_total
                  (Promise_all
                     (map (fun attachment =>
                             Zoho.uploadAttachment env accountId accessToken
                               (to_buffer env (content attachment))
                               (filename attachment)) l)) w) as Hl.
    apply IH in Hl. destruct Hl as (El & Hu & Hok).
    inversion H; subst; clear H. rewrite Ee, El. simpl.
    repeat split; auto.
    intros Hall.
    destruct (Hall a (or_introl eq_refl)) as (d & j & Hd).
    rewrite (Hr d j Hd).
    destruct Hok as (ds & ->); [intros; apply Hall; right; assumption|].
    eauto.
Qed.

Lemma runs_upload_attachments env accountId accessToken message w r w' evs :
  runs (Zoho.upload_attachments env accountId accessToken message) w r w' evs ->
  w' = w /\ forallb is_upload evs = true /\
  ((forall attachment, In attachment (attachment_list message) ->
                       upload_ok env accountId accessToken attachment) ->
   exists ds, r = Return ds).
Proof. unfold Zoho.upload_attachments. apply runs_upload_all. Qed.

(** ** Inverting a whole call *)

Ltac invert_blocks :=
  repeat (match goal with
          | H : runs (Smtp.insert_attachments _ _ _) _ _ _ _ |- _ =>
              apply runs_insert_attachments in H;
              destruct H as (? & ? & ? & ? & ? & ?)
          | H : runs (Zoho.upload_attachments _ _ _ _) _ _ _ _ |- _ =>
              apply runs_upload_attachments in H;
              destruct H as (? & ? & ?)
          | H : runs (PostgresCredentialRepository.findById _ _) _ _ _ _ |- _ =>
              apply runs_findById in H;
              destruct H as (? & ? & [(? & ? & ?) | (? & ?)])
          | H : runs (require_smtp _) _ _ _ _ |- _ =>
              apply runs_require_smtp in H; destruct H as (? & ? & H)
          | H : runs _ _ _ _ _ |- _ => invert_run H
          end; tidy; simpl_world).

(** Names the run of [m] from [w] and inverts it. *)
Ltac invert_call m w :=
  let H := fresh "Hrun" in
  pose proof (runs_total m w) as H;
  destruct (m w) as [?r ?w' ?evs];
  cbn [result final events] in *;
  unfold Smtp.sendEmail, Smtp.insert_message_record, Smtp.get_credential,
    Smtp.update_transporter, Smtp.send,
    Zoho.sendEmail, Zoho.create_message_record, Zoho.get_credential,
    Zoho.getZohoAccessToken, Zoho.getZohoAccountId, Zoho.post_message,
    Smtp.verifyConnection, Zoho.verifyConnection, verifyConnection,
    first_id, createTransport, sendMail, verify, when in H;
  invert_blocks.

(** *** Kinds of events *)

Lemma filter_forallb (p q : Event -> bool) evs :
  (forall e, p e = true -> q e = false) ->
  forallb p evs = true -> filter q evs = [].
Proof.
  intros Hpq. induction evs as [|e evs IH]; simpl; auto.
  intros H. apply andb_prop in H. destruct H as [He Hevs].
  rewrite (Hpq e He). auto.
Qed.

Lemma existsb_forallb (p q : Event -> bool) evs :
  (forall e, p e = true -> q e = false) ->
  forallb p evs = true -> existsb q evs = false.
Proof.
  intros Hpq. induction evs as [|e evs IH]; simpl; auto.
  intros H. apply andb_prop in H. destruct H as [He Hevs].
  rewrite (Hpq e He). auto.
Qed.

Lemma forallb_weaken (p q : Event -> bool) evs :
  (forall e, p e = true -> q e = true) ->
  forallb p evs = true -> forallb q evs = true.
Proof.
  intros Hpq. induction evs as [|e evs IH]; simpl; auto.
  intros H. apply andb_prop in H. destruct H as [He Hevs].
  rewrite (Hpq e He). auto.
Qed.

(** Two kinds of events, one of which excludes or includes the other. *)
Ltac compare_kinds :=
  let e := fresh "e" in
  intros e; destruct e as [ | [] | | | | | | | | | ]; simpl; congruence.

(** Rewrites away the events of a loop whose kind is not asked for. *)
Ltac skip_loop :=
  repeat match goal with
         | H : forallb ?p ?l = true |- context [filter ?q ?l] =>
             rewrite (@filter_forallb p q l) by (compare_kinds || exact H)
         | H : forallb ?p ?l = true |- context [existsb ?q ?l] =>
             rewrite (@existsb_forallb p q l) by (compare_kinds || exact H)
         | H : forallb ?p ?l = true |- context [forallb ?q ?l] =>
             rewrite (@forallb_weaken p q l) by (compare_kinds || exact H)
         | H : forallb ?p ?l = true, H' : context [existsb ?q ?l] |- _ =>
             rewrite (@existsb_forallb p q l) in H' by (compare_kinds || exact H)
         | H : forallb ?p ?l = true, H' : context [filter ?q ?l] |- _ =>
             rewrite (@filter_forallb p q l) in H' by (compare_kinds || exact H)
         end.

Lemma fresh_id_above rows r : In r rows -> om_id r < fresh_id rows.
Proof.
  intros Hin. unfold fresh_id.
  assert (H : Forall (fun k => k <= list_max (map om_id rows)) (map om_id rows))
    by (apply list_max_le; lia).
  rewrite Forall_forall in H. specialize (H (om_id r) (in_map om_id rows r Hin)).
  lia.
Qed.

Lemma update_leaves_older rows f :
  map (fun r => if Nat.eqb (om_id r) (fresh_id rows) then f r else r) rows = rows.
Proof.
  transitivity (map (fun r => r) rows); [|apply map_id].
  apply map_ext_in. intros r Hin.
  apply fresh_id_above in Hin.
  destruct (Nat.eqb_spec (om_id r) (fresh_id rows)); [lia | reflexivity].
Qed.

Lemma update_where_id_fresh t old atts row f :
  outgoing_messages t = old ++ [with_id (fresh_id old) row] ->
  message_attachments t = atts ->
  update_where_id (fresh_id old) f t
  = {| outgoing_messages := old ++ [f (with_id (fresh_id old) row)];
       message_attachments := atts |}.
Proof.
  intros Ho Ha. unfold update_where_id. rewrite Ho, Ha, map_app.
  rewrite update_leaves_older. simpl. rewrite Nat.eqb_refl. reflexivity.
Qed.

Ltac open_hypotheses :=
  repeat match goal with
         | H : _ \/ _ |- _ => destruct H as [H | H]
         | H : exists _, _ |- _ => destruct H as [? H]
         | H : _ /\ _ |- _ => destruct H as [? H]
         end.

Ltac local_events :=
  simpl; rewrite ?forallb_app; simpl; skip_loop; reflexivity.

Ltac smtp_obstacle_found :=
  first [ eapply smtp_storage_fault; eassumption
        | eapply smtp_lookup_fault; eassumption
        | eapply smtp_unknown; eassumption
        | eapply smtp_wrong_type; eassumption
        | eapply smtp_incomplete; eauto ].

Ltac surfaced_found :=
  first [ left; reflexivity | right; eexists; eassumption ].

Ltac smtp_shape :=
  first
    [ solve [ eapply smtp_no_connection; [eassumption | reflexivity ..] ]
    | solve [ eapply smtp_aborted;
              [ eassumption | reflexivity | surfaced_found | smtp_obstacle_found
              | reflexivity | reflexivity | local_events ] ]
    | solve [ eapply smtp_no_transporter;
              [ eassumption | symmetry; eassumption | eassumption
              | unfold smtp_usable; auto | reflexivity | reflexivity
              | local_events ] ]
    | solve [ eapply smtp_dispatched;
              [ eassumption | eassumption | eassumption | eassumption
              | eassumption | unfold smtp_usable; auto | eassumption
              | first [ eapply resolved_cached; [eassumption | symmetry; eassumption]
                      | eapply resolved_rebuilt; eassumption ]
              | simpl; rewrite <- ?app_assoc; simpl; reflexivity
              | unfold persisted; simpl;
                first [ eapply smtp_sent; eassumption
                      | eapply smtp_failed; eassumption
                      | eapply smtp_storage_lost; [eassumption | reflexivity] ]
              | reflexivity ] ] ].

Lemma Smtp_shape env w credentialId message :
  smtp_run env w credentialId message (Smtp.sendEmail env credentialId message w).
Proof.
  invert_call (Smtp.sendEmail env credentialId message) w.
  all: open_hypotheses; subst.
  all: try (erewrite update_where_id_fresh by eassumption).
  all: smtp_shape.
Qed.

Ltac zoho_obstacle_found :=
  first [ eapply zoho_lookup_fault; eassumption
        | eapply zoho_unknown; eassumption
        | eapply zoho_no_token; eassumption
        | eapply zoho_no_account;
          [ eassumption | eassumption
          | let Hz := fresh in
            intros ? ? Hz; rewrite Hz in *; tidy; simpl in *; congruence ]
        | eapply zoho_no_upload;
          [ eassumption | eassumption | eassumption
          | let Hall := fresh in
            intros Hall;
            match goal with
            | H : _ -> exists ds, Throw _ = Return ds |- _ =>
                destruct (H Hall) as [? ?]; discriminate
            end ] ].

Ltac no_dispatch_events :=
  simpl; rewrite ?existsb_app; simpl; skip_loop; reflexivity.

Ltac events_match := simpl; rewrite <- ?app_assoc; simpl; reflexivity.

Ltac zoho_shape :=
  first
    [ solve [ eapply zoho_no_connection; [eassumption | reflexivity ..] ]
    | solve [ eapply zoho_not_begun;
              [ eassumption | reflexivity | reflexivity | local_events ] ]
    | solve [ eapply zoho_stopped;
              [ eassumption | eassumption | eassumption | reflexivity
              | surfaced_found | zoho_obstacle_found | reflexivity
              | events_match | no_dispatch_events ] ]
    | solve [ eapply zoho_dispatched;
              [ eassumption | eassumption | eassumption | eassumption
              | eassumption | eassumption | eassumption | eassumption
              | events_match
              | unfold persisted; simpl;
                first [ eapply zoho_sent; eassumption
                      | eapply zoho_rejected;
                        [eassumption | surfaced_found | reflexivity]
                      | eapply zoho_storage_lost;
                        [eassumption | eassumption | reflexivity] ]
              | reflexivity ] ] ].

Lemma Zoho_shape env w credentialId message :
  zoho_run env w credentialId message (Zoho.sendEmail env credentialId message w).
Proof.
  invert_call (Zoho.sendEmail env credentialId message) w.
  all: open_hypotheses; subst.
  all: repeat match goal with
              | z : ZohoResponse _ |- _ => destruct z; simpl in *; subst
              end.
  all: try discriminate.
  all: try (erewrite update_where_id_fresh by (eassumption || reflexivity)).
  all: zoho_shape.
  Unshelve. all: exact NonError.
Qed.

(** ** What follows from the shapes *)

Lemma existsb_In (p : Event -> bool) evs e :
  In e evs -> p e = true -> existsb p evs = true.
Proof. intros Hin Hp. apply existsb_exists. eauto. Qed.


Lemma cache_names_transporter sv credentialId :
  cache_ok sv = true ->
  differs (currentCredentialId sv) credentialId = false ->
  transporter sv <> None.
Proof.
  unfold cache_ok, differs.
  destruct (currentCredentialId sv); [|discriminate].
  destruct (transporter sv); congruence.
Qed.



Lemma Smtp_success env w credentialId message :
  let o := Smtp.sendEmail env credentialId message w in
  result o = Return tt ->
  persisted (final o)
  = smtp_recorded env w credentialId message (set_sent (now (contact w))) /\
  session (contact (final o)) = None.
Proof.
  intros o Hret. subst o.
  destruct (Smtp_shape env w credentialId message)
    as [ error _ Hr _ _
       | cause error _ Hr _ _ _ _ _
       | c0 error _ _ _ _ Hr _ _
       | c t inserts constructed tail _ _ _ _ _ _ _ _ _ Hend Hs ];
    try congruence.
  inversion Hend; try congruence. auto.
Qed.

Lemma Smtp_succeeds env w credentialId message c :
  storage_healthy env ->
  auth_fault env credentialId = None ->
  stored (credentials w) credentialId = Some c ->
  smtp_usable c ->
  smtp_accepts env c message ->
  cache_ok (service w) = true ->
  result (Smtp.sendEmail env credentialId message w) = Return tt.
Proof.
  intros [Hconn Hq] Ha Hs (Ht & Hh & Hp & Hsec) Hacc Hc.
  destruct (Smtp_shape env w credentialId message)
    as [ error Hconn' _ _ _
       | cause error _ _ _ Hob _ _ _
       | c0 error Hdiff Htr _ _ _ _ _
       | c' t inserts constructed tail _ _ _ _ Hs' _ _ _ _ Hend _ ].
  - congruence.
  - destruct Hob as [k fault Hk | fault Hf | _ Hn | c' _ Hs' Ht' | c' _ Hs' _ Hi ];
      try congruence.
    assert (c' = c) by congruence. subst. destruct Hi as [?|[?|?]]; congruence.
  - destruct (cache_names_transporter _ _ Hc Hdiff Htr).
  - assert (c' = c) by congruence. subst.
    inversion Hend as [ Hok | error Hrej | k fault tl error tb Hk ]; auto.
    + rewrite Hacc in Hrej. discriminate.
    + rewrite Hq in Hk. discriminate.
Qed.

Lemma Smtp_records_failure env w credentialId message c error :
  storage_healthy env ->
  auth_fault env credentialId = None ->
  stored (credentials w) credentialId = Some c ->
  smtp_usable c ->
  smtp_rejects env c message error ->
  cache_ok (service w) = true ->
  failure_recorded w error (Smtp.sendEmail env credentialId message w).
Proof.
  intros [Hconn Hq] Ha Hs (Ht & Hh & Hp & Hsec) Hrej Hc.
  destruct (Smtp_shape env w credentialId message)
    as [ fault Hconn' _ _ _
       | cause fault _ _ _ Hob _ _ _
       | c0 fault Hdiff Htr _ _ _ _ _
       | c' t inserts constructed tail _ _ _ _ Hs' _ Hins Hres Hev Hend Hses ].
  - congruence.
  - destruct Hob as [k fault' Hk | fault' Hf | _ Hn | c' _ Hs' Ht' | c' _ Hs' _ Hi ];
      try congruence.
    assert (c' = c) by congruence. subst. destruct Hi as [?|[?|?]]; congruence.
  - destruct (cache_names_transporter _ _ Hc Hdiff Htr).
  - assert (c' = c) by congruence. subst.
    inversion Hend as [ Hok | error' Hrej' Htail Hr Hp' | k fault tl error' tb Hk ].
    + rewrite Hrej in Hok. discriminate.
    + rewrite Hrej in Hrej'. inversion Hrej'; subst error'.
      unfold failure_recorded. rewrite <- Hr, <- Hp'. split; [reflexivity|].
      split; [eexists; split; [reflexivity | split; reflexivity] |].
      split; [assumption|].
      rewrite Hev, <- Htail. simpl. rewrite filter_app. simpl.
      destruct Hres; simpl; skip_loop; reflexivity.
    + rewrite Hq in Hk. discriminate.
Qed.


(** *** The transport cache of the SMTP service *)

Lemma differs_false current credentialId :
  differs current credentialId = false <-> current = Some credentialId.
Proof.
  unfold differs. destruct current as [c|]; split; intros H; try discriminate.
  - apply negb_false_iff, String.eqb_eq in H. congruence.
  - inversion H; subst. rewrite String.eqb_refl. reflexivity.
Qed.

Lemma differs_true current credentialId :
  differs current credentialId = true <-> current <> Some credentialId.
Proof.
  rewrite <- differs_false. destruct (differs current credentialId); split; congruence.
Qed.

Lemma local_not_construction evs :
  forallb is_local evs = true -> filter is_construction evs = [].
Proof. apply filter_forallb. compare_kinds. Qed.

Lemma outbox_not_construction evs :
  forallb is_outbox evs = true -> filter is_construction evs = [].
Proof. apply filter_forallb. compare_kinds. Qed.

Lemma smtp_tail_outbox env w credentialId message c t tail r tables :
  smtp_ending env w credentialId message c t tail r tables ->
  forallb is_outbox tail = true.
Proof. intros H; destruct H; auto. Qed.

(** What a call does to the cache and how many transports it constructs. *)
Lemma Smtp_cache env w credentialId message :
  cache_ok (service w) = true ->
  let o := Smtp.sendEmail env credentialId message w in
  (filter is_construction (events o) = [] /\ service (final o) = service w /\
   (differs (currentCredentialId (service w)) credentialId = true -> no_dispatch o) /\
   (forall t from m, In (SendMail t from m) (events o) ->
                     transporter (service w) = Some t)) \/
  (exists c,
      differs (currentCredentialId (service w)) credentialId = true /\
      stored (credentials w) credentialId = Some c /\
      filter is_construction (events o) = [CreateTransport (transport_options c)] /\
      service (final o) = rebuilt credentialId c /\
      (forall t from m, In (SendMail t from m) (events o) ->
                        t = transport_options c)).
Proof.
  intros Hc o. subst o. unfold no_dispatch.
  destruct (Smtp_shape env w credentialId message)
    as [ fault _ _ Hf Hev
       | cause error _ _ _ _ _ Hsv Hloc
       | c0 fault Hdiff Htr _ _ _ _ _
       | c t inserts constructed tail _ _ _ _ Hs _ Hins Hres Hev Hend _ ].
  - left. rewrite Hf, Hev. simpl. repeat split; auto.
    intros t from m [H | []]. discriminate.
  - left. repeat split; auto.
    + apply local_not_construction. assumption.
    + intros _. apply (existsb_forallb is_local); [compare_kinds | assumption].
    + intros t from m Hin. rewrite forallb_forall in Hloc.
      apply Hloc in Hin. discriminate.
  - destruct (cache_names_transporter _ _ Hc Hdiff Htr).
  - apply smtp_tail_outbox in Hend.
    assert (Huse : forall t' from m,
               In (SendMail t' from m)
                  (events (Smtp.sendEmail env credentialId message w)) -> t' = t).
    { intros t' from m Hin. rewrite Hev in Hin. simpl in Hin.
      rewrite forallb_forall in Hins, Hend.
      destruct Hin as [? | [? | [? | Hin]]]; try discriminate.
      apply in_app_or in Hin. destruct Hin as [Hin | [? | Hin]]; try discriminate.
      { apply Hins in Hin. discriminate. }
      apply in_app_or in Hin. destruct Hin as [Hin | [Hsend | Hin]].
      - destruct Hres; simpl in Hin; [contradiction|].
        destruct Hin as [Hcreate | []]. discriminate.
      - congruence.
      - apply Hend in Hin. discriminate. }
    assert (Hcon : filter is_construction
                     (events (Smtp.sendEmail env credentialId message w))
                   = filter is_construction constructed).
    { rewrite Hev. simpl. repeat (rewrite filter_app; simpl).
      rewrite (outbox_not_construction _ Hend).
      rewrite (filter_forallb is_attachment_insert is_construction)
        by (compare_kinds || assumption).
      rewrite app_nil_r. reflexivity. }
    inversion Hres as [t0 Hdiff Htr E1 E2 E3 | Hdiff E1 E2 E3].
    + left. rewrite Hcon, <- E1. repeat split; auto.
      * intros; congruence.
      * intros t' from m Hin. apply Huse in Hin. congruence.
    + right. exists c. rewrite Hcon, <- E1. repeat split; auto.
      intros t' from m Hin. apply Huse in Hin. congruence.
Qed.

Lemma Smtp_cache_kept env w credentialId message :
  cache_ok (service w) = true ->
  cache_ok (service (final (Smtp.sendEmail env credentialId message w))) = true.
Proof.
  intros Hc.
  destruct (Smtp_cache env w credentialId message Hc)
    as [(_ & -> & _) | (c & _ & _ & _ & -> & _)]; auto.
Qed.

(** A call that reaches the resolver with another credential than the
    cached one constructs a transport, whatever becomes of the send. *)
Lemma Smtp_constructs env w credentialId message c :
  storage_healthy env ->
  auth_fault env credentialId = None ->
  stored (credentials w) credentialId = Some c ->
  smtp_usable c ->
  differs (currentCredentialId (service w)) credentialId = true ->
  let o := Smtp.sendEmail env credentialId message w in
  filter is_construction (events o) = [CreateTransport (transport_options c)] /\
  service (final o) = rebuilt credentialId c.
Proof.
  intros [Hconn Hq] Ha Hs (Ht & Hh & Hp & Hsec) Hd o. subst o.
  destruct (Smtp_shape env w credentialId message)
    as [ fault Hconn' _ _ _
       | cause error _ _ _ Hob _ _ _
       | c0 fault Hdiff _ _ _ _ _ _
       | c' t inserts constructed tail _ _ _ _ Hs' _ Hins Hres Hev Hend _ ].
  - congruence.
  - destruct Hob as [k fault' Hk | fault' Hf | _ Hn | c' _ Hs' Ht' | c' _ Hs' _ Hi ];
      try congruence.
    assert (c' = c) by congruence. subst. destruct Hi as [?|[?|?]]; congruence.
  - congruence.
  - assert (c' = c) by congruence. subst.
    apply smtp_tail_outbox in Hend.
    inversion Hres as [t0 Hdiff Htr E1 E2 E3 | Hdiff E1 E2 E3]; [congruence|].
    split; [|reflexivity].
    rewrite Hev, <- E1. simpl. repeat (rewrite filter_app; simpl).
    rewrite (outbox_not_construction _ Hend).
    rewrite (filter_forallb is_attachment_insert is_construction)
      by (compare_kinds || assumption).
    reflexivity.
Qed.

Lemma local_not_network evs :
  forallb is_local evs = true -> existsb is_network evs = false.
Proof. apply existsb_forallb. compare_kinds. Qed.

Lemma local_not_dispatch evs :
  forallb is_local evs = true -> existsb is_dispatch evs = false.
Proof. apply existsb_forallb. compare_kinds. Qed.

Lemma Smtp_pending_first env w credentialId message :
  pending_first env (events (Smtp.sendEmail env credentialId message w)).
Proof.
  unfold pending_first.
  destruct (Smtp_shape env w credentialId message)
    as [ fault _ _ _ Hev
       | cause error _ _ _ _ _ _ Hloc
       | c0 fault _ _ _ _ _ _ Hloc
       | c t inserts constructed tail _ _ Hq1 _ _ _ _ _ Hev _ _ ].
  - rewrite Hev. discriminate.
  - rewrite (local_not_network _ Hloc). discriminate.
  - rewrite (local_not_network _ Hloc). discriminate.
  - intros _. rewrite Hev. eauto.
Qed.

(** *** The Zoho service *)



(** Whatever fails in the Zoho service, the send included, nothing of the
    call stays in the outbox. *)
Lemma Zoho_failure_rolled_back env w credentialId message error :
  result (Zoho.sendEmail env credentialId message w) = Throw error ->
  persisted (final (Zoho.sendEmail env credentialId message w)) = persisted w.
Proof.
  intros Hthrow.
  destruct (Zoho_shape env w credentialId message)
    as [ fault _ _ Hf _
       | k fault fault' _ _ Hp _
       | cause fault rest _ _ _ _ _ _ Hp _ _
       | c tok acct j uploads details tail _ _ _ _ _ _ _ _ _ Hend _ ]; auto.
  - rewrite Hf. reflexivity.
  - inversion Hend; congruence.
Qed.

Lemma Zoho_success env w credentialId message :
  let o := Zoho.sendEmail env credentialId message w in
  result o = Return tt ->
  persisted (final o) = zoho_recorded w credentialId message /\
  session (contact (final o)) = None.
Proof.
  intros o Hret. subst o.
  destruct (Zoho_shape env w credentialId message)
    as [ fault _ Hr _ _
       | k fault fault' _ Hr _ _
       | cause fault rest _ _ _ Hr _ _ _ _ _
       | c tok acct j uploads details tail _ _ _ _ _ _ _ _ _ Hend Hs ];
    try congruence.
  inversion Hend; try congruence. auto.
Qed.

Lemma Zoho_succeeds env w credentialId message c accessToken accountId :
  storage_healthy env ->
  auth_fault env credentialId = None ->
  stored (credentials w) credentialId = Some c ->
  zoho_ready env c message accessToken accountId ->
  (forall request, zoho_send env accountId accessToken request = None) ->
  result (Zoho.sendEmail env credentialId message w) = Return tt.
Proof.
  intros [Hconn Hq] Ha Hs (Htok & [j Hacc] & Hfalsy & Hup) Hsend.
  destruct (Zoho_shape env w credentialId message)
    as [ fault Hconn' _ _ _
       | k fault fault' Hk _ _ _
       | cause fault rest _ _ _ _ _ Hob _ _ _
       | c' tok acct j' uploads details tail _ _ _ _ Hs' Htok' Hacc' _ _ Hend _ ].
  - congruence.
  - rewrite Hq in Hk. discriminate.
  - destruct Hob as [ f Hf | _ Hn | c' f Hs' Ht' | c' tok cause Hs' Ht' Hno
                    | c' tok acct j' cause Hs' Ht' Ha' Hno ]; try congruence.
    all: assert (c' = c) by congruence; subst.
    all: assert (tok = accessToken) by congruence; subst.
    + specialize (Hno _ _ Hacc). congruence.
    + assert (acct = accountId) by congruence. subst. contradiction.
  - assert (c' = c) by congruence. subst.
    assert (tok = accessToken) by congruence. subst.
    assert (acct = accountId) by congruence. subst.
    inversion Hend as [ Hok | cause error tl Hrej | k fault error tl _ Hk ]; auto.
    + rewrite Hsend in Hrej. discriminate.
    + rewrite Hq in Hk. discriminate.
Qed.


Lemma Zoho_pending_first env w credentialId message :
  pending_first env (events (Zoho.sendEmail env credentialId message w)).
Proof.
  unfold pending_first.
  destruct (Zoho_shape env w credentialId message)
    as [ fault _ _ _ Hev
       | k fault fault' _ _ _ Hloc
       | cause fault rest _ _ Hq1 _ _ _ _ Hev _
       | c tok acct j uploads details tail _ _ Hq1 _ _ _ _ _ Hev _ _ ].
  - rewrite Hev. discriminate.
  - rewrite (local_not_network _ Hloc). discriminate.
  - intros _. rewrite Hev. eauto.
  - intros _. rewrite Hev. eauto.
Qed.

(** ** The order of the steps *)

Lemma ascending_cons a l :
  ascending (a :: l) = true <->
  ascending l = true /\ (forall b, hd_error l = Some b -> a <= b).
Proof.
  destruct l as [|b l]; simpl.
  - split; auto. intros _. split; auto. discriminate.
  - rewrite andb_true_iff, Nat.leb_le. split.
    + intros [Hab Hl]. split; auto. intros b' E. inversion E; subst. assumption.
    + intros [Hl Hb]. split; auto.
Qed.

Lemma ascending_app l1 l2 k :
  ascending l1 = true -> ascending l2 = true ->
  Forall (fun s => s <= k) l1 -> Forall (fun s => k <= s) l2 ->
  ascending (l1 ++ l2) = true.
Proof.
  intros H1 H2 Hle Hge. induction l1 as [|a l1 IH]; simpl; auto.
  apply ascending_cons in H1. destruct H1 as [H1 Ha].
  inversion Hle as [|? ? Hak Hle']; subst.
  apply ascending_cons. split; [auto|].
  intros b Hb. destruct l1 as [|a' l1]; simpl in Hb.
  - destruct l2 as [|b' l2]; simpl in Hb; inversion Hb; subst.
    inversion Hge; subst. lia.
  - inversion Hb; subst. apply Ha. reflexivity.
Qed.

Section Paced.

Variable step : Event -> nat.

Lemma paced_silent {A} (m : M A) lo hi :
  (forall w, events (m w) = []) -> paced step lo hi m.
Proof. intros H w. rewrite H. split; [reflexivity | constructor]. Qed.

Lemma paced_one {A} (m : M A) e lo hi :
  (forall w, events (m w) = [e]) -> lo <= step e <= hi -> paced step lo hi m.
Proof.
  intros H Hb w. rewrite H. split; [reflexivity | repeat constructor; lia].
Qed.

Lemma paced_append lo mid hi evs1 evs2 :
  lo <= mid <= hi ->
  in_order step evs1 -> Forall (fun e => lo <= step e <= mid) evs1 ->
  in_order step evs2 -> Forall (fun e => mid <= step e <= hi) evs2 ->
  in_order step (evs1 ++ evs2) /\
  Forall (fun e => lo <= step e <= hi) (evs1 ++ evs2).
Proof.
  intros Hb H1 F1 H2 F2. unfold in_order in *. split.
  - rewrite map_app. apply ascending_app with (k := mid); auto.
    + apply Forall_map. eapply Forall_impl; [|exact F1]. simpl. lia.
    + apply Forall_map. eapply Forall_impl; [|exact F2]. simpl. lia.
  - apply Forall_app. split.
    + eapply Forall_impl; [|exact F1]. simpl. lia.
    + eapply Forall_impl; [|exact F2]. simpl. lia.
Qed.

Lemma paced_weaken {A} (m : M A) lo hi lo' hi' :
  lo' <= lo -> hi <= hi' -> paced step lo hi m -> paced step lo' hi' m.
Proof.
  intros Hlo Hhi H w. destruct (H w) as [Ho Hf]. split; auto.
  eapply Forall_impl; [|exact Hf]. simpl. lia.
Qed.

Lemma paced_bind {A B} (m : M A) (f : A -> M B) lo mid hi :
  lo <= mid <= hi ->
  paced step lo mid m -> (forall a, paced step mid hi (f a)) ->
  paced step lo hi (bind m f).
Proof.
  intros Hb Hm Hf w. unfold bind. destruct (Hm w) as [Ho Hfa].
  destruct (result (m w)) as [a|error]; simpl.
  - destruct (Hf a (final (m w))). apply paced_append with (mid := mid); auto.
  - split; auto. eapply Forall_impl; [|exact Hfa]. simpl. lia.
Qed.

Lemma paced_try_catch {A} (m : M A) handler lo mid hi :
  lo <= mid <= hi ->
  paced step lo mid m -> (forall error, paced step mid hi (handler error)) ->
  paced step lo hi (try_catch m handler).
Proof.
  intros Hb Hm Hh w. unfold try_catch. destruct (Hm w) as [Ho Hfa].
  destruct (result (m w)) as [a|error]; simpl.
  - split; auto. eapply Forall_impl; [|exact Hfa]. simpl. lia.
  - destruct (Hh error (final (m w))). apply paced_append with (mid := mid); auto.
Qed.

Lemma paced_finally {A} (m : M A) cleanup lo mid hi :
  lo <= mid <= hi ->
  paced step lo mid m -> paced step mid hi cleanup ->
  paced step lo hi (finally m cleanup).
Proof.
  intros Hb Hm Hc w. unfold finally. simpl.
  destruct (Hm w). destruct (Hc (final (m w))).
  apply paced_append with (mid := mid); auto.
Qed.

Lemma paced_for_of {A} (xs : list A) body k :
  (forall x, paced step k k (body x)) -> paced step k k (for_of xs body).
Proof.
  intros Hbody. induction xs as [|x xs IH]; simpl.
  - apply paced_silent. reflexivity.
  - apply paced_bind with (mid := k); auto.
Qed.

Lemma paced_Promise_all {A} (ms : list (M A)) k :
  Forall (paced step k k) ms -> paced step k k (Promise_all ms).
Proof.
  induction 1 as [|m ms Hm _ IH]; simpl.
  - apply paced_silent. reflexivity.
  - intros w. simpl. destruct (Hm w). destruct (IH (final (m w))).
    apply paced_append with (mid := k); auto.
Qed.

Lemma paced_client_query env q lo hi :
  lo <= step (DbQuery q) <= hi -> paced step lo hi (client_query env q).
Proof.
  intros Hb. apply paced_one with (e := DbQuery q); auto.
  intros w. unfold client_query.
  destruct (query_fault env (issued (contact w))); [reflexivity|].
  destruct (execute q (count_statement (contact w))). reflexivity.
Qed.

Lemma paced_db_connect env lo hi :
  lo <= step DbConnect <= hi -> paced step lo hi (db_connect env).
Proof.
  intros Hb. apply paced_one with (e := DbConnect); auto.
  intros w. unfold db_connect. destruct (connect_fault env); reflexivity.
Qed.

Lemma paced_db_release lo hi :
  lo <= step DbRelease <= hi -> paced step lo hi db_release.
Proof. intros Hb. apply paced_one with (e := DbRelease); auto. Qed.

Lemma paced_emit e lo hi :
  lo <= step e <= hi -> paced step lo hi (emit e).
Proof. intros Hb. apply paced_one with (e := e); auto. Qed.

Lemma paced_findById env i lo hi :
  lo <= step (AuthQuery i) <= hi ->
  paced step lo hi (PostgresCredentialRepository.findById env i).
Proof.
  intros Hb. apply paced_one with (e := AuthQuery i); auto.
  intros w. unfold PostgresCredentialRepository.findById, try_catch, bind,
    PostgresCredentialRepository.select_where_id.
  destruct (auth_fault env i); reflexivity.
Qed.

Lemma paced_require_smtp found lo hi : paced step lo hi (require_smtp found).
Proof.
  apply paced_silent. intros w. unfold require_smtp.
  destruct found as [c|]; [|reflexivity].
  destruct (negb _); [reflexivity|]. destruct (_ || _); reflexivity.
Qed.

End Paced.

(** Side conditions: an event's step lies between two bounds. *)
Ltac in_bounds := unfold zoho_order; simpl; lia.

Ltac pace_leaf :=
  first [ apply paced_client_query; in_bounds
        | apply paced_db_connect; in_bounds
        | apply paced_db_release; in_bounds
        | apply paced_emit; in_bounds
        | apply paced_findById; in_bounds
        | apply paced_require_smtp
        | apply paced_silent; reflexivity ].

(** Splits a sequence at the first step, from 0 upwards, below which its
    first part stays; the parts are then paced on their own. *)
Ltac pace :=
  lazymatch goal with
  | |- paced _ _ _ (bind _ _) => pace_split paced_bind
  | |- paced _ _ _ (try_catch _ _) => pace_split paced_try_catch
  | |- paced _ _ _ (finally _ _) => pace_split paced_finally
  | |- paced _ _ _ (match ?x with _ => _ end) => destruct x; pace
  | |- paced _ _ _ (for_of _ _) => pace_loop
  | |- paced _ _ _ (Promise_all (map _ _)) => pace_loop
  | |- paced _ _ _ (when ?b _) => destruct b; unfold when; pace
  | |- paced _ _ _ (Smtp.insert_message_record _ _ _) =>
      unfold Smtp.insert_message_record; pace
  | |- paced _ _ _ (Smtp.insert_attachments _ _ _) =>
      unfold Smtp.insert_attachments; pace
  | |- paced _ _ _ (Smtp.get_credential _ _) => unfold Smtp.get_credential; pace
  | |- paced _ _ _ (Smtp.update_transporter _ _) =>
      unfold Smtp.update_transporter; pace
  | |- paced _ _ _ (Smtp.send _ _ _ _) => unfold Smtp.send; pace
  | |- paced _ _ _ (createTransport _) => unfold createTransport; pace
  | |- paced _ _ _ (sendMail _ _ _ _) => unfold sendMail; pace
  | |- paced _ _ _ (first_id _) => unfold first_id; pace
  | |- paced _ _ _ (Zoho.create_message_record _ _ _) =>
      unfold Zoho.create_message_record; pace
  | |- paced _ _ _ (Zoho.get_credential _ _) => unfold Zoho.get_credential; pace
  | |- paced _ _ _ (Zoho.getZohoAccessToken _ _ _) =>
      unfold Zoho.getZohoAccessToken; pace
  | |- paced _ _ _ (Zoho.getZohoAccountId _ _) => unfold Zoho.getZohoAccountId; pace
  | |- paced _ _ _ (Zoho.upload_attachments _ _ _ _) =>
      unfold Zoho.upload_attachments; pace
  | |- paced _ _ _ (Zoho.uploadAttachment _ _ _ _ _) =>
      unfold Zoho.uploadAttachment; pace
  | |- paced _ _ _ (Zoho.post_message _ _ _ _) => unfold Zoho.post_message; pace
  | |- _ => pace_leaf
  end
with pace_split rule :=
  first [ pace_until rule 0 | pace_until rule 1 | pace_until rule 2
        | pace_until rule 3 | pace_until rule 4 | pace_until rule 5
        | pace_until rule 6 | pace_until rule 7 | pace_until rule 8
        | pace_until rule 9 | pace_until rule 10 ];
  try (intros ?); pace
with pace_until rule k :=
  eapply rule with (mid := k); [ lia | solve [pace] | ]
with pace_loop :=
  first [ pace_round 0 | pace_round 1 | pace_round 2 | pace_round 3
        | pace_round 4 | pace_round 5 | pace_round 6 | pace_round 7
        | pace_round 8 | pace_round 9 | pace_round 10 ]
with pace_round k :=
  apply paced_weaken with (lo := k) (hi := k); [ lia | lia | ];
  first [ apply paced_for_of; intros ?; solve [pace]
        | apply paced_Promise_all; apply Forall_forall;
          let m := fresh "m" in
          let Hin := fresh "Hin" in
          intros m Hin; apply in_map_iff in Hin;
          destruct Hin as (? & <- & _); solve [pace] ].

Lemma Smtp_paced env credentialId message :
  paced step_4_1 1 9 (Smtp.sendEmail env credentialId message).
Proof. unfold Smtp.sendEmail. pace. Qed.

Lemma Zoho_paced env credentialId message :
  paced zoho_order 1 9 (Zoho.sendEmail env credentialId message).
Proof. unfold Zoho.sendEmail. pace. Qed.

(** ** verifyConnection *)

Lemma verifyConnection_frame env credentialId w :
  final (verifyConnection env credentialId w) = w /\
  existsb is_outbox (events (verifyConnection env credentialId w)) = false.
Proof.
  invert_call (verifyConnection env credentialId) w.
  all: open_hypotheses; subst; auto.
Qed.

Lemma verifyConnection_verdict env credentialId w c :
  auth_fault env credentialId = None ->
  stored (credentials w) credentialId = Some c ->
  smtp_usable c ->
  let o := verifyConnection env credentialId w in
  events o = [AuthQuery credentialId; CreateTransport (transport_options c);
              Verify (transport_options c)] /\
  match smtp_verify env (transport_options c) with
  | None => result o = Return true
  | Some error =>
      result o = Throw (wrap "Failed to verify email connection: " error)
  end.
Proof.
  intros Ha Hs (Ht & Hh & Hp & Hsec).
  invert_call (verifyConnection env credentialId) w.
  all: open_hypotheses; subst; try congruence.
  all: try (rewrite Hs in *; tidy).
  all: try congruence.
  all: match goal with H : smtp_verify _ _ = _ |- _ => rewrite H end; auto.
Qed.

Lemma verifyConnection_never_false env credentialId w :
  result (verifyConnection env credentialId w) <> Return false.
Proof.
  invert_call (verifyConnection env credentialId) w.
  all: discriminate.
Qed.

(** ** validateApiKey *)

Lemma where_id_none i rows :
  (forall row, In row rows -> row_id row <> i) ->
  PostgresCredentialRepository.where_id i rows = [].
Proof.
  intros Hno. unfold PostgresCredentialRepository.where_id.
  induction rows as [|row rows IH]; simpl; auto.
  destruct (String.eqb_spec (row_id row) i) as [E | _].
  - destruct (Hno row (or_introl eq_refl) E).
  - apply IH. intros r Hr. apply Hno. right. assumption.
Qed.

Lemma validateApiKey_unknown env i apiKey_ w :
  (forall row, In row (credentials w) -> row_id row <> i) ->
  let o := PostgresCredentialRepository.validateApiKey env i apiKey_ w in
  match auth_fault env i with
  | None => result o = Return false
  | Some fault => result o = Throw (wrap "Failed to validate API key: " fault)
  end /\
  final o = w /\ events o = [AuthQuery i].
Proof.
  intros Hno. apply where_id_none in Hno.
  pose proof (runs_total (PostgresCredentialRepository.validateApiKey env i apiKey_) w)
    as Hrun.
  destruct (PostgresCredentialRepository.validateApiKey env i apiKey_ w)
    as [r w' evs]. simpl.
  unfold PostgresCredentialRepository.validateApiKey,
    PostgresCredentialRepository.compare in Hrun.
  invert_runs; simpl in *.
  all: try match goal with H : auth_fault _ _ = _ |- _ => rewrite H end; auto.
  all: congruence.
Qed.

(** ** A NULL secure flag *)



(** ** The claims *)

(** The SMTP service records a failed send: the pending row is updated to
    failed with the text of the error, the transaction is committed, one
    dispatch was attempted and the caller gets the error wrapped. *)
Lemma smtp_dispatch_failure_is_recorded env w credentialId message c error :
  storage_healthy env ->
  auth_fault env credentialId = None ->
  stored (credentials w) credentialId = Some c ->
  smtp_usable c ->
  smtp_rejects env c message error ->
  cache_ok (service w) = true ->
  failure_recorded w error (Smtp.sendEmail env credentialId message w).
Proof. apply Smtp_records_failure. Qed.

(** C1 fails in the Zoho service.  With the welcome message, an existing
    credential and an empty outbox, when the send endpoint of Zoho answers
    with an error: the dispatch was attempted, the caller gets the wrapped
    error, and no row is left in the outbox, so that no failure is
    recorded. *)
Theorem C1_zoho_dispatch_failure_leaves_no_record :
  let o := Zoho.sendEmail env_rejecting "zoho-1" welcome world0 in
  existsb is_dispatch (events o) = true /\
  result o
  = Throw (JsError "Failed to send email: Request failed with status code 500") /\
  outgoing_messages (persisted (final o)) = [] /\
  ~ failure_recorded world0 (JsError "Request failed with status code 500") o.
Proof.
  repeat split; try reflexivity.
  intros (_ & (row & Hrow & _) & _).
  vm_compute in Hrow. discriminate Hrow.
Qed.



Lemma sent_row_recorded w o tables row :
  result o = Return tt ->
  persisted (final o) = tables ->
  outgoing_messages tables = outgoing_messages (persisted w) ++ [row] ->
  status row = "sent" -> sent_at row = Some (now (contact w)) ->
  session (contact (final o)) = None ->
  sent_recorded w o.
Proof.
  intros Hr Hp Ho Hs Ha Hses. unfold sent_recorded. rewrite Hp. eauto 7.
Qed.

(** C3: with the stores answering and a valid credential, a call whose
    dispatch succeeds returns, and leaves one more [outgoing_messages]
    row, committed, with status sent and a sent timestamp; in both
    services. *)
Theorem C3_success_is_recorded env w credentialId message c :
  storage_healthy env ->
  auth_fault env credentialId = None ->
  stored (credentials w) credentialId = Some c ->
  cache_ok (service w) = true ->
  (smtp_usable c -> smtp_accepts env c message ->
   sent_recorded w (Smtp.sendEmail env credentialId message w)) /\
  (forall accessToken accountId,
      zoho_ready env c message accessToken accountId ->
      (forall request, zoho_send env accountId accessToken request = None) ->
      sent_recorded w (Zoho.sendEmail env credentialId message w)).
Proof.
  intros Hh Ha Hs Hc. split.
  - intros Hu Hacc.
    pose proof (Smtp_succeeds env w credentialId message c Hh Ha Hs Hu Hacc Hc) as Hr.
    destruct (Smtp_success env w credentialId message Hr) as [Hp Hses].
    eapply sent_row_recorded; eauto; reflexivity.
  - intros accessToken accountId Hready Hsend.
    pose proof (Zoho_succeeds env w credentialId message c accessToken accountId
                  Hh Ha Hs Hready Hsend) as Hr.
    destruct (Zoho_success env w credentialId message Hr) as [Hp Hses].
    eapply sent_row_recorded; eauto; reflexivity.
Qed.

Lemma C3_witness :
  sent_recorded world0 (Smtp.sendEmail env_ok "smtp-1" welcome_attached world0) /\
  sent_recorded world0 (Zoho.sendEmail env_ok "smtp-1" welcome_attached world0).
Proof.
  destruct (C3_success_is_recorded env_ok world0 "smtp-1" welcome_attached
              (PostgresCredentialRepository.mapToCredential smtp_row))
    as [Hsmtp Hzoho].
  - split; [reflexivity | intros k; reflexivity].
  - reflexivity.
  - reflexivity.
  - reflexivity.
  - split.
    + apply Hsmtp.
      * repeat split; simpl; congruence.
      * intros t. reflexivity.
    + apply (Hzoho "token" "account").
      * split; [reflexivity|]. split; [exists "{}"; reflexivity|].
        split; [reflexivity|].
        intros attachment Hin. eexists. eexists. reflexivity.
      * intros request. reflexivity.
Defined.




(** C5, as the code has it: in both services a run that reaches the
    network has first opened the transaction and inserted the pending row;
    the SMTP service takes the steps of section 4.1 in their order, and the
    Zoho service takes them with the credential, the token and the account
    resolved before the attachments are staged. *)
Theorem C5_pending_row_first_and_steps_in_order env w credentialId message :
  pending_first env (events (Smtp.sendEmail env credentialId message w)) /\
  pending_first env (events (Zoho.sendEmail env credentialId message w)) /\
  in_order step_4_1 (events (Smtp.sendEmail env credentialId message w)) /\
  in_order zoho_order (events (Zoho.sendEmail env credentialId message w)).
Proof.
  repeat split.
  - apply Smtp_pending_first.
  - apply Zoho_pending_first.
  - apply Smtp_paced.
  - apply Zoho_paced.
Qed.

(** C5 as stated fails in the Zoho service: with an attachment, the
    credential is resolved (step 4) and the token obtained (step 5) before
    the attachment is staged (step 3). *)
Lemma C5_zoho_resolves_before_staging :
  ~ in_order step_4_1
      (events (Zoho.sendEmail env_ok "zoho-1" welcome_attached world0)).
Proof. unfold in_order. vm_compute. discriminate. Qed.

Lemma constructions_of evs l :
  filter is_construction evs = l -> constructions evs = length l.
Proof. unfold constructions. intros ->. reflexivity. Qed.

(** C6: the SMTP service holds at most one transporter, with the ID of
    the credential it was built for.  A call for the cached ID constructs
    nothing, leaves the cache alone and sends through the cached
    transporter; a call for another ID either stops before the resolver,
    leaving the cache alone, or constructs one transporter from the stored
    credential, caches it under the new ID and sends through it, and it
    does the latter whenever it reaches the resolver.  So two calls in a row
    for one ID construct at most once. *)
Theorem C6_transport_cache env w credentialId message :
  cache_ok (service w) = true ->
  let o := Smtp.sendEmail env credentialId message w in
  cache_ok (service (final o)) = true /\
  (currentCredentialId (service w) = Some credentialId ->
   constructions (events o) = 0 /\ service (final o) = service w /\
   forall t from m, In (SendMail t from m) (events o) ->
                    transporter (service w) = Some t) /\
  (currentCredentialId (service w) <> Some credentialId ->
   (constructions (events o) = 0 /\ service (final o) = service w /\ no_dispatch o) \/
   (exists c,
       stored (credentials w) credentialId = Some c /\
       filter is_construction (events o) = [CreateTransport (transport_options c)] /\
       service (final o) = rebuilt credentialId c /\
       forall t from m, In (SendMail t from m) (events o) ->
                        t = transport_options c)) /\
  (forall c,
      storage_healthy env -> auth_fault env credentialId = None ->
      stored (credentials w) credentialId = Some c -> smtp_usable c ->
      currentCredentialId (service w) <> Some credentialId ->
      constructions (events o) = 1 /\ service (final o) = rebuilt credentialId c) /\
  (forall env' message',
      constructions (events o) +
      constructions (events (Smtp.sendEmail env' credentialId message' (final o)))
      <= 1).
Proof.
  intros Hc o. subst o.
  pose proof (Smtp_cache env w credentialId message Hc) as Hcache.
  split; [apply Smtp_cache_kept; assumption|].
  split; [|split; [|split]].
  - intros Hcur. apply differs_false in Hcur.
    destruct Hcache as [(Hn & Hsv & _ & Huse) | (c & Hd & _)]; [|congruence].
    rewrite (constructions_of _ _ Hn). auto.
  - intros Hcur. apply differs_true in Hcur.
    destruct Hcache as [(Hn & Hsv & Hnd & _) | (c & _ & Hs & Hn & Hsv & Huse)].
    + left. rewrite (constructions_of _ _ Hn). auto.
    + right. exists c. auto.
  - intros c Hh Ha Hs Hu Hcur. apply differs_true in Hcur.
    destruct (Smtp_constructs env w credentialId message c Hh Ha Hs Hu Hcur)
      as [Hn Hsv].
    rewrite (constructions_of _ _ Hn). auto.
  - intros env' message'.
    pose proof (Smtp_cache_kept env w credentialId message Hc) as Hc'.
    pose proof (Smtp_cache env' _ credentialId message' Hc') as Hnext.
    destruct Hcache as [(Hn & Hsv & _) | (c & _ & _ & Hn & Hsv & _)].
    + rewrite (constructions_of _ _ Hn).
      destruct Hnext as [(Hn' & _) | (c' & _ & _ & Hn' & _)];
        rewrite (constructions_of _ _ Hn'); simpl; lia.
    + rewrite (constructions_of _ _ Hn).
      destruct Hnext as [(Hn' & _) | (c' & Hd' & _)].
      * rewrite (constructions_of _ _ Hn'). simpl. lia.
      * rewrite Hsv in Hd'. simpl in Hd'. rewrite String.eqb_refl in Hd'.
        discriminate Hd'.
Qed.

(** Two calls in a row with one credential construct once; a third with
    another credential constructs again. *)
Lemma C6_witness :
  let o1 := Smtp.sendEmail env_ok "smtp-1" welcome world0 in
  let o2 := Smtp.sendEmail env_ok "smtp-1" welcome_attached (final o1) in
  let o3 := Smtp.sendEmail env_ok "smtp-2" welcome (final o2) in
  constructions (events o1) + constructions (events o2) <= 1 /\
  constructions (events o3) = 1.
Proof.
  intros o1 o2 o3. split.
  - apply (C6_transport_cache env_ok world0 "smtp-1" welcome eq_refl).
  - apply (C6_transport_cache env_ok (final o2) "smtp-2" welcome eq_refl)
      with (c := PostgresCredentialRepository.mapToCredential smtp_row_2).
    + split; [reflexivity | intros k; reflexivity].
    + reflexivity.
    + reflexivity.
    + repeat split; simpl; congruence.
    + discriminate.
Defined.

(** C7: [verifyConnection], which is the same method in both services,
    leaves the world as it found it, the cached transporter and its
    credential ID included, and issues nothing on the contact database.
    For a valid SMTP credential it looks the credential up, builds a
    transport of its own and runs the handshake: it returns true when the
    handshake succeeds, and fails with the wrapped verification error when
    the handshake fails. *)
Theorem C7_verifyConnection_is_a_side_channel env w credentialId :
  let o := Smtp.verifyConnection env credentialId w in
  Zoho.verifyConnection env credentialId w = o /\
  final o = w /\
  existsb is_outbox (events o) = false /\
  forall c,
    auth_fault env credentialId = None ->
    stored (credentials w) credentialId = Some c ->
    smtp_usable c ->
    events o = [AuthQuery credentialId; CreateTransport (transport_options c);
                Verify (transport_options c)] /\
    (smtp_verify env (transport_options c) = None -> result o = Return true) /\
    (forall error,
        smtp_verify env (transport_options c) = Some error ->
        result o = Throw (wrap "Failed to verify email connection: " error)).
Proof.
  intros o. subst o. unfold Zoho.verifyConnection, Smtp.verifyConnection.
  split; [reflexivity|].
  destruct (verifyConnection_frame env credentialId w) as [Hw Hev].
  split; [assumption|]. split; [assumption|].
  intros c Ha Hs Hu.
  destruct (verifyConnection_verdict env credentialId w c Ha Hs Hu) as [He Hr].
  split; [assumption|]. split.
  - intros Hok. rewrite Hok in Hr. assumption.
  - intros error Hfail. rewrite Hfail in Hr. assumption.
Qed.

Lemma C7_witness :
  result (Smtp.verifyConnection env_ok "smtp-1" world0) = Return true /\
  result (Smtp.verifyConnection env_rejecting "smtp-1" world0)
  = Throw (JsError "Failed to verify email connection: connect ECONNREFUSED").
Proof.
  split.
  - apply (C7_verifyConnection_is_a_side_channel env_ok world0 "smtp-1")
      with (c := PostgresCredentialRepository.mapToCredential smtp_row).
    + reflexivity.
    + reflexivity.
    + repeat split; simpl; congruence.
    + reflexivity.
  - apply (C7_verifyConnection_is_a_side_channel env_rejecting world0 "smtp-1")
      with (c := PostgresCredentialRepository.mapToCredential smtp_row)
           (error := JsError "connect ECONNREFUSED").
    + reflexivity.
    + reflexivity.
    + repeat split; simpl; congruence.
    + reflexivity.
Defined.

(** C8, as the code has it: when both services succeed on the same
    credential ID and message from the same state, each leaves one more
    [outgoing_messages] row, and the two rows agree on id, credential_id,
    type, recipient, subject, status (sent), sent_at and error_message. *)
Theorem C8_rows_of_two_successes_agree env w credentialId message :
  result (Smtp.sendEmail env credentialId message w) = Return tt ->
  result (Zoho.sendEmail env credentialId message w) = Return tt ->
  exists r1 r2,
    outgoing_messages (persisted (final (Smtp.sendEmail env credentialId message w)))
    = outgoing_messages (persisted w) ++ [r1] /\
    outgoing_messages (persisted (final (Zoho.sendEmail env credentialId message w)))
    = outgoing_messages (persisted w) ++ [r2] /\
    same_core r1 r2 /\ status r1 = "sent".
Proof.
  intros Hs Hz.
  destruct (Smtp_success env w credentialId message Hs) as [-> _].
  destruct (Zoho_success env w credentialId message Hz) as [-> _].
  eexists. eexists. split; [reflexivity|]. split; [reflexivity|].
  repeat split.
Qed.

Lemma C8_witness :
  exists r1 r2,
    outgoing_messages (persisted (final (Smtp.sendEmail env_ok "smtp-1" welcome world0)))
    = outgoing_messages (persisted world0) ++ [r1] /\
    outgoing_messages (persisted (final (Zoho.sendEmail env_ok "smtp-1" welcome world0)))
    = outgoing_messages (persisted world0) ++ [r2] /\
    same_core r1 r2 /\ status r1 = "sent".
Proof.
  apply (C8_rows_of_two_successes_agree env_ok world0 "smtp-1" welcome);
    reflexivity.
Defined.

(** C8 as stated fails: with a complete credential and a message with a
    text body and one attachment, both services succeed, and the SMTP
    service has stored the attachment and a NULL [body_html] where the Zoho
    service has stored no attachment and an empty [body_html]. *)
Lemma C8_the_services_leave_different_outboxes :
  ~ agree (Smtp.sendEmail env_ok "smtp-1" welcome_attached world0)
          (Zoho.sendEmail env_ok "smtp-1" welcome_attached world0).
Proof.
  intros [_ Hp]. vm_compute in Hp. discriminate Hp.
Qed.

(** C9: for an ID that no row of [credentials] carries, [validateApiKey]
    returns false when the query goes through, never true, and throws only
    when the query fails, the wrapped error of the query. *)
Theorem C9_validateApiKey_of_an_unknown_id env w i apiKey_ :
  (forall row, In row (credentials w) -> row_id row <> i) ->
  let o := PostgresCredentialRepository.validateApiKey env i apiKey_ w in
  (auth_fault env i = None -> result o = Return false) /\
  (forall error,
      result o = Throw error ->
      exists fault,
        auth_fault env i = Some fault /\
        error = wrap "Failed to validate API key: " fault) /\
  result o <> Return true.
Proof.
  intros Hno o. subst o.
  destruct (validateApiKey_unknown env i apiKey_ w Hno) as [Hr _].
  destruct (auth_fault env i) as [fault|]; rewrite Hr.
  - split; [discriminate|]. split; [|discriminate].
    intros error E. inversion E. eauto.
  - split; [reflexivity|]. split; [|discriminate].
    intros error E. discriminate E.
Qed.

Lemma C9_witness :
  result (PostgresCredentialRepository.validateApiKey env_ok "nobody" "key" world0)
  = Return false.
Proof.
  apply (C9_validateApiKey_of_an_unknown_id env_ok world0 "nobody" "key").
  - intros row [<- | [<- | [<- | [<- | []]]]]; discriminate.
  - reflexivity.
Defined.

(** C10: [verifyConnection] of either service never returns false. *)
Theorem C10_verifyConnection_never_returns_false env w credentialId :
  result (Smtp.verifyConnection env credentialId w) <> Return false /\
  result (Zoho.verifyConnection env credentialId w) <> Return false.
Proof.
  split; apply verifyConnection_never_false.
Qed.

(** ** Further properties *)

(** *** The credential repository *)

(** X1: [findById] leaves the world as it was and issues one query.  When
    the query fails the failure is wrapped; when it goes through, the
    result is null exactly when no row carries the ID, and a credential
    that is returned is the mapping of a stored row and carries the ID. *)
Theorem X1_findById_finds_the_id env w i :
  let o := PostgresCredentialRepository.findById env i w in
  final o = w /\ events o = [AuthQuery i] /\
  match auth_fault env i with
  | Some fault => result o = Throw (wrap "Failed to find credential: " fault)
  | None =>
      result o = Return (stored (credentials w) i) /\
      (stored (credentials w) i = None <->
       forall row, In row (credentials w) -> row_id row <> i) /\
      (forall c, stored (credentials w) i = Some c ->
                 id c = i /\
                 exists row, In row (credentials w) /\
                             c = PostgresCredentialRepository.mapToCredential row)
  end.
Proof.
  intros o. subst o.
  pose proof (runs_total (PostgresCredentialRepository.findById env i) w) as Hrun.
  apply runs_findById in Hrun. destruct Hrun as (Hw & Hev & Hr).
  split; [assumption|]. split; [assumption|].
  destruct Hr as [(fault & Hf & Hr) | (Hf & Hr)]; rewrite Hf; [assumption|].
  split; [assumption|].
  unfold stored, PostgresCredentialRepository.where_id. split.
  - split.
    + intros Hnone row Hin Hid.
      destruct (filter (fun row => row_id row =? i) (credentials w)) eqn:E;
        [|discriminate].
      assert (Hin' : In row (filter (fun row => row_id row =? i) (credentials w)))
        by (apply filter_In; split; [assumption | apply String.eqb_eq; assumption]).
      rewrite E in Hin'. contradiction.
    + intros Hno. apply where_id_none in Hno.
      unfold PostgresCredentialRepository.where_id in Hno. rewrite Hno. reflexivity.
  - intros c Hc.
    destruct (filter (fun row => row_id row =? i) (credentials w)) as [|row rest] eqn:E;
      [discriminate|].
    simpl in Hc. inversion Hc; subst c.
    assert (Hin : In row (filter (fun row => row_id row =? i) (credentials w)))
      by (rewrite E; left; reflexivity).
    apply filter_In in Hin. destruct Hin as [Hin Hid].
    apply String.eqb_eq in Hid. split; [exact Hid|]. eauto.
Qed.

(** X2: [validateApiKey] answers true only for the ID of a stored row
    whose hash bcrypt accepts for the key; for a stored ID it answers what
    bcrypt answers for the first row of that ID.  What bcrypt rejects with
    reaches the caller as it is: the promise is returned without [await],
    so the [catch] that wraps a failed query does not see it.  The world is
    left as it was. *)
Theorem X2_validateApiKey_is_the_verdict_of_bcrypt env w i apiKey_ :
  let o := PostgresCredentialRepository.validateApiKey env i apiKey_ w in
  final o = w /\
  (result o = Return true ->
   exists row, In row (credentials w) /\ row_id row = i /\
               bcrypt_compare env apiKey_ (api_key row) = inr true) /\
  (forall row rest,
      auth_fault env i = None ->
      PostgresCredentialRepository.where_id i (credentials w) = row :: rest ->
      result o = match bcrypt_compare env apiKey_ (api_key row) with
                 | inr verdict => Return verdict
                 | inl fault => Throw fault
                 end) /\
  (forall fault,
      auth_fault env i = Some fault ->
      result o = Throw (wrap "Failed to validate API key: " fault)).
Proof.
  intros o. subst o.
  unfold PostgresCredentialRepository.validateApiKey, try_catch, bind,
    PostgresCredentialRepository.select_where_id,
    PostgresCredentialRepository.compare.
  destruct (auth_fault env i) as [fault|]; simpl.
  { split; [reflexivity|]. split; [discriminate|]. split; [congruence|].
    intros fault' E. inversion E. reflexivity. }
  destruct (PostgresCredentialRepository.where_id i (credentials w))
    as [|row rest] eqn:Hrows; simpl.
  { split; [reflexivity|]. split; [discriminate|]. split; [congruence|].
    discriminate. }
  assert (Hrow : In row (credentials w) /\ row_id row = i).
  { assert (Hin : In row (PostgresCredentialRepository.where_id i (credentials w)))
      by (rewrite Hrows; left; reflexivity).
    apply filter_In in Hin. destruct Hin as [Hin Hid].
    apply String.eqb_eq in Hid. auto. }
  destruct (bcrypt_compare env apiKey_ (api_key row)) as [fault | verdict] eqn:Hb;
    simpl.
  - split; [reflexivity|]. split; [discriminate|]. split; [|discriminate].
    intros row' rest' _ E. inversion E; subst. rewrite Hb. reflexivity.
  - split; [reflexivity|]. split; [|split; [|discriminate]].
    + intros E. inversion E; subst. exists row. tauto.
    + intros row' rest' _ E. inversion E; subst. rewrite Hb. reflexivity.
Qed.

Lemma place_permutation row sorted :
  Permutation (PostgresCredentialRepository.place_by_created_at row sorted)
    (row :: sorted).
Proof.
  induction sorted as [|r rest IH]; simpl; auto.
  destruct (Nat.ltb (created_at r) (created_at row)); auto.
  rewrite IH. apply perm_swap.
Qed.

Lemma order_permutation rows :
  Permutation (PostgresCredentialRepository.order_by_created_at_desc rows) rows.
Proof.
  induction rows as [|row rows IH]; simpl; auto.
  rewrite place_permutation. auto.
Qed.

Lemma place_sorted row sorted :
  rows_newest_first sorted ->
  rows_newest_first (PostgresCredentialRepository.place_by_created_at row sorted).
Proof.
  unfold rows_newest_first. induction 1 as [|r rest Hrest IH Hr]; simpl.
  - repeat constructor.
  - destruct (Nat.ltb_spec (created_at r) (created_at row)) as [Hlt | Hge].
    + constructor; [constructor; assumption|].
      constructor; [lia|].
      eapply Forall_impl; [|exact Hr]. simpl. intros; lia.
    + constructor; [assumption|].
      eapply Permutation_Forall; [symmetry; apply place_permutation|].
      constructor; assumption.
Qed.

Lemma order_sorted rows :
  rows_newest_first (PostgresCredentialRepository.order_by_created_at_desc rows).
Proof.
  induction rows as [|row rows IH]; simpl.
  - constructor.
  - apply place_sorted. assumption.
Qed.

Lemma map_newest_first rows :
  rows_newest_first rows ->
  newest_first (map PostgresCredentialRepository.mapToCredential rows).
Proof.
  unfold rows_newest_first, newest_first.
  induction 1 as [|r rest Hrest IH Hr]; simpl; constructor; auto.
  apply Forall_map. assumption.
Qed.

Lemma CommunicationType_eqb_eq a b : CommunicationType_eqb a b = true <-> a = b.
Proof. destruct a, b; simpl; split; congruence. Qed.

(** X3: [findByType]: when the query goes through, the credentials
    returned are those of the rows of the requested type, all of them and
    each once, newest first; when it fails, the failure is wrapped.  The
    world is left as it was. *)
Theorem X3_findByType_lists_the_type_newest_first env w t :
  let o := PostgresCredentialRepository.findByType env t w in
  final o = w /\
  match auth_fault env (PostgresCredentialRepository.type_name t) with
  | Some fault =>
      result o = Throw (wrap "Failed to find credentials by type: " fault)
  | None =>
      exists l,
        result o = Return l /\
        Permutation l
          (map PostgresCredentialRepository.mapToCredential
               (PostgresCredentialRepository.where_type t (credentials w))) /\
        Forall (fun c => type c = t) l /\
        newest_first l
  end.
Proof.
  unfold PostgresCredentialRepository.findByType, try_catch, bind,
    PostgresCredentialRepository.select_where_type. simpl.
  destruct (auth_fault env (PostgresCredentialRepository.type_name t))
    as [fault|]; simpl.
  - auto.
  - split; [reflexivity|]. eexists. split; [reflexivity|].
    assert (Hperm := order_permutation
                       (PostgresCredentialRepository.where_type t (credentials w))).
    split; [apply Permutation_map; assumption|]. split.
    + apply Forall_map.
      eapply Permutation_Forall; [symmetry; exact Hperm|].
      apply Forall_forall. intros row Hin. apply filter_In in Hin.
      destruct Hin as [_ Hin]. apply CommunicationType_eqb_eq in Hin. assumption.
    + apply map_newest_first, order_sorted.
Qed.

(** *** What a call leaves in the outbox *)

(** X4: what a successful call of the SMTP service leaves in the outbox:
    one more message row, carrying the credential ID, the recipient, cc and
    bcc as arrays (NULL when absent or empty), reply-to, subject and bodies
    of the message as given, no error text; and one attachment row for each
    attachment of the message, in order, under the ID of the message row,
    with the decoded content and its length. *)
Theorem X4_smtp_success_persists_the_message env w credentialId message :
  let o := Smtp.sendEmail env credentialId message w in
  result o = Return tt ->
  exists row,
    outgoing_messages (persisted (final o))
    = outgoing_messages (persisted w) ++ [row] /\
    (forall old, In old (outgoing_messages (persisted w)) -> om_id old <> om_id row) /\
    credential_id row = credentialId /\ om_type row = "email" /\
    recipient row = to message /\
    om_cc row = recipient_array (cc message) /\
    om_bcc row = recipient_array (bcc message) /\
    reply_to row = replyTo message /\ om_subject row = subject message /\
    body_text row = text message /\ body_html row = html message /\
    error_message row = None /\
    message_attachments (persisted (final o))
    = message_attachments (persisted w) ++
      map (fun attachment =>
             {| message_id := om_id row;
                ma_filename := filename attachment;
                content_type := contentType attachment;
                size_bytes := length (to_buffer env (content attachment));
                ma_content := to_buffer env (content attachment) |})
          (attachment_list message).
Proof.
  intros o Hr. subst o.
  destruct (Smtp_success env w credentialId message Hr) as [-> _].
  eexists. split; [reflexivity|]. split.
  - intros old Hin. apply fresh_id_above in Hin. simpl. lia.
  - repeat split.
Qed.

Lemma X4_witness :
  exists row,
    persisted (final (Smtp.sendEmail env_ok "smtp-1" welcome_attached world0))
    = {| outgoing_messages := [row];
         message_attachments :=
           [ {| message_id := om_id row; ma_filename := "terms.pdf";
                content_type := Some "application/pdf";
                size_bytes := 0; ma_content := [] |} ] |} /\
    recipient row = "user@example.com" /\ body_text row = Some "Hello".
Proof.
  destruct (X4_smtp_success_persists_the_message
              env_ok world0 "smtp-1" welcome_attached eq_refl)
    as (row & Hm & _ & _ & _ & Hto & _ & _ & _ & _ & Htext & _ & _ & Ha).
  exists row. split; [|split; assumption].
  destruct (persisted (final (Smtp.sendEmail env_ok "smtp-1" welcome_attached world0))).
  simpl in Hm, Ha. rewrite Hm, Ha. reflexivity.
Defined.

(** X5: what a successful call of the Zoho service leaves in the outbox:
    one more message row with the credential ID, recipient and subject of
    the message, its bodies with the empty string for a missing one, and
    NULL for cc, bcc and reply-to whatever the message says; the attachment
    table is as it was. *)
Theorem X5_zoho_success_persists_less env w credentialId message :
  let o := Zoho.sendEmail env credentialId message w in
  result o = Return tt ->
  exists row,
    outgoing_messages (persisted (final o))
    = outgoing_messages (persisted w) ++ [row] /\
    (forall old, In old (outgoing_messages (persisted w)) -> om_id old <> om_id row) /\
    credential_id row = credentialId /\ om_type row = "email" /\
    recipient row = to message /\ om_subject row = subject message /\
    body_text row = Some (or_empty (text message)) /\
    body_html row = Some (or_empty (html message)) /\
    om_cc row = None /\ om_bcc row = None /\ reply_to row = None /\
    error_message row = None /\
    message_attachments (persisted (final o)) = message_attachments (persisted w).
Proof.
  intros o Hr. subst o.
  destruct (Zoho_success env w credentialId message Hr) as [-> _].
  eexists. split; [reflexivity|]. split.
  - intros old Hin. apply fresh_id_above in Hin. simpl. lia.
  - repeat split.
Qed.

Lemma X5_witness :
  exists row,
    persisted (final (Zoho.sendEmail env_ok "zoho-1" welcome_attached world0))
    = {| outgoing_messages := [row]; message_attachments := [] |} /\
    body_text row = Some "Hello" /\ body_html row = Some "".
Proof.
  destruct (X5_zoho_success_persists_less
              env_ok world0 "zoho-1" welcome_attached eq_refl)
    as (row & Hm & _ & _ & _ & _ & _ & Htext & Hhtml & _ & _ & _ & _ & Ha).
  exists row. split; [|split; assumption].
  destruct (persisted (final (Zoho.sendEmail env_ok "zoho-1" welcome_attached world0))).
  simpl in Hm, Ha. rewrite Hm, Ha. reflexivity.
Defined.

(** X6: the Zoho service is all or nothing: a call either returns, having
    appended one row with status sent, or throws and leaves the committed
    outbox as it found it; so it never writes an attachment row and never
    leaves a row with status pending or failed. *)
Theorem X6_zoho_all_or_nothing env w credentialId message :
  let o := Zoho.sendEmail env credentialId message w in
  (result o = Return tt /\ persisted (final o) = zoho_recorded w credentialId message) \/
  ((exists error, result o = Throw error) /\ persisted (final o) = persisted w).
Proof.
  intros o. subst o.
  destruct (result (Zoho.sendEmail env credentialId message w)) as [[]|error] eqn:Hr.
  - left. split; [reflexivity|]. apply Zoho_success. assumption.
  - right. split; [eauto|]. eapply Zoho_failure_rolled_back. eassumption.
Qed.

Lemma map_update_last old r f :
  om_id r = fresh_id old ->
  map (fun r => if Nat.eqb (om_id r) (fresh_id old) then f r else r) (old ++ [r])
  = old ++ [f r].
Proof.
  intros Hid. rewrite map_app, update_leaves_older. simpl.
  rewrite Hid, Nat.eqb_refl. reflexivity.
Qed.

(** X7: a call of the SMTP service that completes never leaves a pending
    row behind: the committed outbox afterwards is the one before, or has
    exactly one more message row, whose status is sent or failed. *)
Theorem X7_smtp_leaves_no_pending_row env w credentialId message :
  let tables := persisted (final (Smtp.sendEmail env credentialId message w)) in
  tables = persisted w \/
  one_more_row w "sent" tables \/ one_more_row w "failed" tables.
Proof.
  unfold persisted, one_more_row.
  invert_call (Smtp.sendEmail env credentialId message) w.
  all: try (left; reflexivity).
  all: right.
  all: match goal with
       | H : outgoing_messages ?t = _ ++ [_] |- _ => rewrite H
       end.
  all: rewrite !map_update_last by reflexivity.
  all: first [ left; eexists; split; reflexivity
             | right; eexists; split; reflexivity ].
Qed.

(** *** What a call sends *)

Lemma outbox_not_dispatch evs :
  forallb is_outbox evs = true -> filter is_dispatch evs = [].
Proof. apply filter_forallb. compare_kinds. Qed.

Lemma zoho_tail_outbox env w credentialId message acct tok request tail r tables :
  zoho_ending env w credentialId message acct tok request tail r tables ->
  forallb is_outbox tail = true.
Proof. intros H; destruct H; auto. Qed.

(** X8: neither service retries: a call hands the message to the mail
    transport at most once. *)
Theorem X8_at_most_one_dispatch env w credentialId message :
  length (filter is_dispatch (events (Smtp.sendEmail env credentialId message w))) <= 1 /\
  length (filter is_dispatch (events (Zoho.sendEmail env credentialId message w))) <= 1.
Proof.
  split.
  - destruct (Smtp_shape env w credentialId message)
      as [ fault _ _ _ Hev
         | cause error _ _ _ _ _ _ Hloc
         | c0 fault _ _ _ _ _ _ Hloc
         | c t inserts constructed tail _ _ _ _ _ _ Hins Hres Hev Hend _ ].
    + rewrite Hev. simpl. lia.
    + rewrite (filter_forallb is_local is_dispatch) by (compare_kinds || assumption).
      simpl. lia.
    + rewrite (filter_forallb is_local is_dispatch) by (compare_kinds || assumption).
      simpl. lia.
    + apply smtp_tail_outbox in Hend.
      rewrite Hev. simpl. repeat (rewrite filter_app; simpl).
      rewrite (outbox_not_dispatch _ Hend).
      rewrite (filter_forallb is_attachment_insert is_dispatch)
        by (compare_kinds || assumption).
      destruct Hres; simpl; lia.
  - destruct (Zoho_shape env w credentialId message)
      as [ fault _ _ _ Hev
         | k fault fault' _ _ _ Hloc
         | cause fault rest _ _ _ _ _ _ _ Hev Hnd
         | c tok acct j uploads details tail _ _ _ _ _ _ _ Hup Hev Hend _ ].
    + rewrite Hev. simpl. lia.
    + rewrite (filter_forallb is_local is_dispatch) by (compare_kinds || assumption).
      simpl. lia.
    + rewrite Hev. simpl.
      assert (Hnone : filter is_dispatch rest = []).
      { clear Hev. induction rest as [|e rest IH]; simpl in *; auto.
        apply orb_false_iff in Hnd. destruct Hnd as [He Hrest].
        rewrite He. auto. }
      rewrite Hnone. simpl. lia.
    + apply zoho_tail_outbox in Hend.
      rewrite Hev. simpl. repeat (rewrite filter_app; simpl).
      rewrite (outbox_not_dispatch _ Hend).
      rewrite (filter_forallb is_upload is_dispatch) by (compare_kinds || assumption).
      simpl. lia.
Qed.

(** X9: every send request the Zoho service makes carries the token that
    Zoho issued in this call for the user name and password of the stored
    credential, and the first account of that token; it is sent from the
    name of the credential to the recipient of the message. *)
Theorem X9_zoho_sends_with_the_token_of_the_call
    env w credentialId message accountId accessToken request :
  In (ZohoSend accountId accessToken request)
     (events (Zoho.sendEmail env credentialId message w)) ->
  exists c j,
    stored (credentials w) credentialId = Some c /\
    zoho_token env (username c) (password c) = inr accessToken /\
    zoho_accounts env accessToken = inr {| first := Some accountId; json := j |} /\
    fromAddress request = name c /\ toAddress request = to message /\
    zoho_subject request = subject message.
Proof.
  intros Hin.
  destruct (Zoho_shape env w credentialId message)
    as [ fault _ _ _ Hev
       | k fault fault' _ _ _ Hloc
       | cause fault rest _ _ _ _ _ _ _ Hev Hnd
       | c tok acct j uploads details tail _ _ _ _ Hs Htok Hacc Hup Hev Hend _ ].
  - rewrite Hev in Hin. destruct Hin as [E | []]. discriminate.
  - rewrite forallb_forall in Hloc. apply Hloc in Hin. discriminate.
  - rewrite Hev in Hin. simpl in Hin.
    destruct Hin as [E | [E | [E | [E | Hin]]]]; try discriminate.
    assert (Hd : existsb is_dispatch rest = true)
      by (eapply existsb_In; [exact Hin | reflexivity]).
    congruence.
  - apply zoho_tail_outbox in Hend. rewrite forallb_forall in Hup, Hend.
    rewrite Hev in Hin. simpl in Hin.
    destruct Hin as [E | [E | [E | [E | [E | [E | Hin]]]]]]; try discriminate.
    apply in_app_or in Hin. destruct Hin as [Hin | [E | Hin]].
    + apply Hup in Hin. discriminate.
    + inversion E; subst. exists c, j. repeat split; assumption.
    + apply Hend in Hin. discriminate.
Qed.

Lemma X9_witness :
  exists c,
    stored (credentials world0) "zoho-1" = Some c /\
    zoho_token env_ok (username c) (password c) = inr "token" /\
    name c = "noreply@example.com".
Proof.
  destruct (X9_zoho_sends_with_the_token_of_the_call
              env_ok world0 "zoho-1" welcome "account" "token"
              (Zoho.send_request
                 (PostgresCredentialRepository.mapToCredential zoho_row) welcome []))
    as (c & j & Hs & Ht & _ & Hfrom & _).
  - simpl. tauto.
  - exists c. split; [assumption|]. split; [assumption|].
    symmetry. assumption.
Defined.

Lemma runs_uploadAttachment_details
    env accountId accessToken attachment w details w' evs :
  runs (Zoho.uploadAttachment env accountId accessToken
          (to_buffer env (content attachment)) (filename attachment))
       w (Return details) w' evs ->
  staged_as env accountId accessToken attachment details.
Proof.
  unfold Zoho.uploadAttachment, staged_as. intros H.
  invert_runs; simpl in *.
  match goal with H : zoho_upload _ _ _ _ _ = inr ?z |- _ => destruct z end.
  simpl in *. subst. eauto.
Qed.

Lemma runs_upload_all_details env accountId accessToken (l : list EmailAttachment) :
  forall w ds w' evs,
    runs (Promise_all
            (map (fun attachment =>
                    Zoho.uploadAttachment env accountId accessToken
                      (to_buffer env (content attachment)) (filename attachment))
                 l)) w (Return ds) w' evs ->
    Forall2 (staged_as env accountId accessToken) l ds.
Proof.
  induction l as [|a l IH]; intros w ds w' evs H; simpl in H.
  - invert_runs. constructor.
  - unfold runs in H. inversion H as [[Hr Hw He]]. clear H.
    pose proof (runs_total
                  (Zoho.uploadAttachment env accountId accessToken
                     (to_buffer env (content a)) (filename a)) w) as Ha.
    destruct (result (Zoho.uploadAttachment env accountId accessToken
                        (to_buffer env (content a)) (filename a) w))
      as [d|] eqn:Ed; [|discriminate].
    apply runs_uploadAttachment_details in Ha.
    match type of Hr with
    | match result ?o with _ => _ end = _ =>
        pose proof (runs_total
                      (Promise_all
                         (map (fun attachment =>
                                 Zoho.uploadAttachment env accountId accessToken
                                   (to_buffer env (content attachment))
                                   (filename attachment)) l))
                      (final (Zoho.uploadAttachment env accountId accessToken
                                (to_buffer env (content a)) (filename a) w))) as Hl;
        destruct (result o) as [ds'|] eqn:El; [|discriminate]
    end.
    inversion Hr; subst. constructor; [assumption|].
    eapply IH. exact Hl.
Qed.

Lemma copy_details (ds : list ZohoAttachmentDetails) :
  map (fun detail =>
         {| storeName := storeName detail;
            attachmentPath := attachmentPath detail;
            attachmentName := attachmentName detail |}) ds = ds.
Proof.
  induction ds as [|[s p n] ds IH]; simpl; [reflexivity|]. rewrite IH. reflexivity.
Qed.

Ltac invert_blocks_staging :=
  repeat (match goal with
          | H : runs (Zoho.upload_attachments _ _ _ _) _ (Return _) _ _ |- _ =>
              let Hd := fresh "Hstaged" in
              pose proof H as Hd;
              unfold Zoho.upload_attachments in Hd;
              apply runs_upload_all_details in Hd;
              apply runs_upload_attachments in H;
              destruct H as (? & ? & ?)
          | H : runs (Zoho.upload_attachments _ _ _ _) _ _ _ _ |- _ =>
              apply runs_upload_attachments in H;
              destruct H as (? & ? & ?)
          | H : runs (PostgresCredentialRepository.findById _ _) _ _ _ _ |- _ =>
              apply runs_findById in H;
              destruct H as (? & ? & [(? & ? & ?) | (? & ?)])
          | H : runs _ _ _ _ _ |- _ => invert_run H
          end; tidy; simpl_world).

(** X10: the send request of the Zoho service references the attachments
    by what Zoho answered when they were staged: one reference for each
    attachment of the message, in the order of the message, unmodified. *)
Theorem X10_zoho_references_the_staged_attachments
    env w credentialId message accountId accessToken request :
  In (ZohoSend accountId accessToken request)
     (events (Zoho.sendEmail env credentialId message w)) ->
  Forall2 (staged_as env accountId accessToken)
    (attachment_list message) (zoho_attachments request).
Proof.
  pose proof (runs_total (Zoho.sendEmail env credentialId message) w) as Hrun.
  destruct (Zoho.sendEmail env credentialId message w) as [r w' evs].
  cbn [result final events] in *.
  unfold Zoho.sendEmail, Zoho.create_message_record, Zoho.get_credential,
    Zoho.getZohoAccessToken, Zoho.getZohoAccountId, Zoho.post_message,
    first_id in Hrun.
  invert_blocks_staging.
  all: intros Hin; rewrite ?in_app_iff in Hin; simpl in Hin.
  all: rewrite ?in_app_iff in Hin; simpl in Hin.
  all: repeat match goal with
              | H : _ \/ _ |- _ => destruct H as [H | H]
              | H : False |- _ => destruct H
              | H : ZohoSend _ _ _ = ZohoSend _ _ _ |- _ =>
                  inversion H; clear H; subst
              | H : forallb is_upload ?l = true, H' : In _ ?l |- _ =>
                  rewrite forallb_forall in H; apply H in H'; discriminate H'
              end; try discriminate.
  all: simpl; rewrite copy_details.
  all: repeat match goal with
              | z : ZohoResponse _ |- _ => destruct z; simpl in *; subst
              end; tidy.
  all: try assumption.
Qed.

Lemma X10_witness :
  Forall2 (staged_as env_ok "account" "token")
    (attachment_list welcome_attached)
    [ {| storeName := "store"; attachmentPath := "/path";
         attachmentName := "terms.pdf" |} ].
Proof.
  apply (X10_zoho_references_the_staged_attachments
           env_ok world0 "zoho-1" welcome_attached "account" "token"
           (Zoho.send_request
              (PostgresCredentialRepository.mapToCredential zoho_row)
              welcome_attached
              [ {| storeName := "store"; attachmentPath := "/path";
                   attachmentName := "terms.pdf" |} ])).
  simpl. tauto.
Defined.

(** X11: every message the SMTP service hands to nodemailer is the message
    of the call.  It is sent from the [from] key of the message when the
    message carries one, and from the user name of the stored credential
    otherwise.  The credential is of type email and has a host and a port;
    its secure flag may be NULL.  The transporter that carries the message
    is the one the service holds for this credential ID after the call:
    built in this call from the stored credential, or found in the cache
    under this ID. *)
Theorem X11_smtp_sends_the_message_as_the_stored_credential
    env w credentialId message t from sent :
  In (SendMail t from sent) (events (Smtp.sendEmail env credentialId message w)) ->
  sent = message /\
  exists c,
    stored (credentials w) credentialId = Some c /\
    type c = email /\ falsy_string (host c) = false /\
    falsy_number (port c) = false /\
    from = match own_key "from" message with
           | Some value => value
           | None => username c
           end /\
    transporter (service (final (Smtp.sendEmail env credentialId message w)))
    = Some t /\
    currentCredentialId (service (final (Smtp.sendEmail env credentialId message w)))
    = Some credentialId /\
    (t = transport_options c \/
     (currentCredentialId (service w) = Some credentialId /\
      transporter (service w) = Some t)).
Proof.
  intros Hin.
  destruct (Smtp_shape env w credentialId message)
    as [ fault _ _ _ Hev
       | cause error _ _ _ _ _ _ Hloc
       | c0 fault _ _ _ _ _ _ Hloc
       | c t' inserts constructed tail _ _ _ _ Hs (Ht & Hh & Hp & _)
           Hins Hres Hev Hend _ ].
  - rewrite Hev in Hin. destruct Hin as [E | []]. discriminate.
  - rewrite forallb_forall in Hloc. apply Hloc in Hin. discriminate.
  - rewrite forallb_forall in Hloc. apply Hloc in Hin. discriminate.
  - apply smtp_tail_outbox in Hend. rewrite forallb_forall in Hins, Hend.
    rewrite Hev in Hin. simpl in Hin.
    destruct Hin as [E | [E | [E | Hin]]]; try discriminate.
    apply in_app_or in Hin. destruct Hin as [Hin | [E | Hin]];
      [apply Hins in Hin; discriminate | discriminate |].
    assert (Hsend : In (SendMail t from sent)
                       (SendMail t' (mail_from c message) message :: tail)).
    { apply in_app_or in Hin. destruct Hin as [Hin | Hin]; [|assumption].
      destruct Hres; simpl in Hin; [contradiction|].
      destruct Hin as [E | []]. discriminate. }
    destruct Hsend as [E | Hin']; [|apply Hend in Hin'; discriminate].
    inversion E; subst. split; [reflexivity|]. exists c.
    split; [assumption|]. split; [assumption|]. split; [assumption|].
    split; [assumption|]. split; [reflexivity|].
    destruct Hres as [t0 Hd Htr | Hd].
    + apply differs_false in Hd. auto.
    + simpl. auto.
Qed.

Lemma X11_witness :
  exists c,
    stored (credentials world0) "smtp-1" = Some c /\
    username c = "noreply@example.com" /\
    In (SendMail (transport_options c) "ceo@example.com" welcome_from_ceo)
       (events (Smtp.sendEmail env_ok "smtp-1" welcome_from_ceo world0)).
Proof.
  assert (Hin : In (SendMail
                      (transport_options
                         (PostgresCredentialRepository.mapToCredential smtp_row))
                      "ceo@example.com" welcome_from_ceo)
                   (events (Smtp.sendEmail env_ok "smtp-1" welcome_from_ceo world0)))
    by (simpl; tauto).
  destruct (X11_smtp_sends_the_message_as_the_stored_credential
              env_ok world0 "smtp-1" welcome_from_ceo _ _ _ Hin)
    as (_ & c & Hs & _).
  exists c. simpl in Hs. inversion Hs; subst c.
  split; [reflexivity|]. split; [reflexivity|]. exact Hin.
Defined.

(** *** What a call leaves alone *)

Section Keeps.

Context {X : Type} (f : World -> X).
Hypothesis f_contact : forall g w, f (on_contact g w) = f w.

Lemma keeps_ret {A} (a : A) : keeps f (ret a).
Proof. intros w. reflexivity. Qed.

Lemma keeps_throw {A} error : keeps f (@throw A error).
Proof. intros w. reflexivity. Qed.

Lemma keeps_emit e : keeps f (emit e).
Proof. intros w. reflexivity. Qed.

Lemma keeps_bind {A B} (m : M A) (k : A -> M B) :
  keeps f m -> (forall a, keeps f (k a)) -> keeps f (bind m k).
Proof.
  intros Hm Hk w. unfold bind. destruct (result (m w)) as [a|error]; simpl.
  - rewrite Hk. apply Hm.
  - apply Hm.
Qed.

Lemma keeps_try_catch {A} (m : M A) handler :
  keeps f m -> (forall error, keeps f (handler error)) ->
  keeps f (try_catch m handler).
Proof.
  intros Hm Hh w. unfold try_catch. destruct (result (m w)) as [a|error]; simpl.
  - apply Hm.
  - rewrite Hh. apply Hm.
Qed.

Lemma keeps_finally {A} (m : M A) cleanup :
  keeps f m -> keeps f cleanup -> keeps f (finally m cleanup).
Proof. intros Hm Hc w. unfold finally. simpl. rewrite Hc. apply Hm. Qed.

Lemma keeps_Promise_all {A} (ms : list (M A)) :
  Forall (keeps f) ms -> keeps f (Promise_all ms).
Proof.
  induction 1 as [|m ms Hm _ IH]; intros w; simpl; [reflexivity|].
  rewrite IH. apply Hm.
Qed.

Lemma keeps_client_query env q : keeps f (client_query env q).
Proof.
  intros w. unfold client_query.
  destruct (query_fault env (issued (contact w))); simpl; [apply f_contact|].
  destruct (execute q (count_statement (contact w))). simpl. apply f_contact.
Qed.

Lemma keeps_db_connect env : keeps f (db_connect env).
Proof.
  intros w. unfold db_connect.
  destruct (connect_fault env); simpl; [reflexivity | apply f_contact].
Qed.

Lemma keeps_db_release : keeps f db_release.
Proof. intros w. apply f_contact. Qed.

Lemma keeps_findById env i : keeps f (PostgresCredentialRepository.findById env i).
Proof.
  intros w.
  pose proof (runs_total (PostgresCredentialRepository.findById env i) w) as H.
  apply runs_findById in H. destruct H as [-> _]. reflexivity.
Qed.

End Keeps.

Ltac keep :=
  lazymatch goal with
  | |- keeps _ (bind _ _) => apply keeps_bind; [keep | intros ?; keep]
  | |- keeps _ (try_catch _ _) =>
      apply keeps_try_catch; [keep | intros ?; keep]
  | |- keeps _ (finally _ _) => apply keeps_finally; [keep | keep]
  | |- keeps _ (match ?x with _ => _ end) => destruct x; keep
  | |- keeps _ (client_query _ _) => apply keeps_client_query; reflexivity
  | |- keeps _ (db_connect _) => apply keeps_db_connect; reflexivity
  | |- keeps _ db_release => apply keeps_db_release; reflexivity
  | |- keeps _ (PostgresCredentialRepository.findById _ _) => apply keeps_findById
  | |- keeps _ (ret _) => apply keeps_ret
  | |- keeps _ (throw _) => apply keeps_throw
  | |- keeps _ (emit _) => apply keeps_emit
  | |- keeps _ (Promise_all (map _ _)) =>
      apply keeps_Promise_all; apply Forall_forall;
      let m := fresh "m" in
      let Hin := fresh "Hin" in
      intros m Hin; apply in_map_iff in Hin; destruct Hin as (? & <- & _); keep
  | |- keeps _ (first_id _) => unfold first_id; keep
  | |- keeps _ (Zoho.create_message_record _ _ _) =>
      unfold Zoho.create_message_record; keep
  | |- keeps _ (Zoho.get_credential _ _) => unfold Zoho.get_credential; keep
  | |- keeps _ (Zoho.getZohoAccessToken _ _ _) =>
      unfold Zoho.getZohoAccessToken; keep
  | |- keeps _ (Zoho.getZohoAccountId _ _) => unfold Zoho.getZohoAccountId; keep
  | |- keeps _ (Zoho.upload_attachments _ _ _ _) =>
      unfold Zoho.upload_attachments; keep
  | |- keeps _ (Zoho.uploadAttachment _ _ _ _ _) =>
      unfold Zoho.uploadAttachment; keep
  | |- keeps _ (Zoho.post_message _ _ _ _) => unfold Zoho.post_message; keep
  end.

Lemma Zoho_keeps_the_cache env credentialId message :
  keeps service (Zoho.sendEmail env credentialId message).
Proof. unfold Zoho.sendEmail. keep. Qed.

Lemma paced_none (p : Event -> bool) {A} (m : M A) w :
  paced (fun e => if p e then 1 else 0) 0 0 m ->
  existsb p (events (m w)) = false.
Proof.
  intros H. destruct (H w) as [_ Hall].
  induction Hall as [|e evs He _ IH]; simpl; auto.
  destruct (p e); [lia | assumption].
Qed.

(** X12: the two services do not mix their transports.  The SMTP service
    never calls the Zoho API.  The Zoho service never uses nodemailer: it
    creates no transporter, sends nothing over SMTP, and leaves the
    transporter cache of the service object as it found it. *)
Theorem X12_the_services_keep_to_their_transport env w credentialId message :
  existsb uses_zoho (events (Smtp.sendEmail env credentialId message w)) = false /\
  existsb uses_smtp (events (Zoho.sendEmail env credentialId message w)) = false /\
  service (final (Zoho.sendEmail env credentialId message w)) = service w.
Proof.
  split; [|split].
  - apply paced_none. unfold Smtp.sendEmail. pace.
  - apply paced_none. unfold Zoho.sendEmail. pace.
  - apply Zoho_keeps_the_cache.
Qed.

Lemma events_begin_first {A} env (k : list nat -> M A) handler w :
  exists rest,
    events (try_catch (bind (client_query env BEGIN) k) handler w)
    = DbQuery BEGIN :: rest.
Proof.
  unfold try_catch, bind.
  assert (He : events (client_query env BEGIN w) = [DbQuery BEGIN]).
  { unfold client_query. destruct (query_fault env (issued (contact w)));
      reflexivity. }
  destruct (result (client_query env BEGIN w)); simpl.
  - destruct (result (k a (final (client_query env BEGIN w)))); simpl;
      rewrite He; simpl; eauto.
  - rewrite He. simpl. eauto.
Qed.

Lemma client_lifecycle_of env w (body : M unit) :
  paced (fun e => if is_pool e then 1 else 0) 0 0 body ->
  (forall w', exists rest, events (body w') = DbQuery BEGIN :: rest) ->
  client_lifecycle env w
    ((db_connect env ;; finally body db_release) w).
Proof.
  intros Hp Hb. unfold client_lifecycle, bind, db_connect.
  destruct (connect_fault env) as [fault|]; simpl; [reflexivity|].
  destruct (Hb (on_contact checkout w)) as [rest Hrest].
  exists rest. rewrite Hrest. split; [reflexivity|].
  pose proof (paced_none is_pool body (on_contact checkout w) Hp) as Hn.
  rewrite Hrest in Hn. simpl in Hn. assumption.
Qed.

(** X13: in both services a call takes one client from the pool and
    always gives it back, last of all, whether it returns or throws; when
    the pool gives no client the call does nothing. *)
Theorem X13_the_client_is_always_released env w credentialId message :
  client_lifecycle env w (Smtp.sendEmail env credentialId message w) /\
  client_lifecycle env w (Zoho.sendEmail env credentialId message w).
Proof.
  split.
  - unfold Smtp.sendEmail. apply client_lifecycle_of.
    + pace.
    + intros w'. apply events_begin_first.
  - unfold Zoho.sendEmail. apply client_lifecycle_of.
    + pace.
    + intros w'. apply events_begin_first.
Qed.

(** *** The HTTP layer *)

Ltac refuse := split; [simpl; tauto | eexists; reflexivity].

Lemma validateApiKey_outcome env i apiKey_ w :
  PostgresCredentialRepository.validateApiKey env i apiKey_ w
  = {| result :=
         match auth_fault env i with
         | Some fault => Throw (wrap "Failed to validate API key: " fault)
         | None =>
             match PostgresCredentialRepository.where_id i (credentials w) with
             | [] => Return false
             | row :: _ =>
                 match bcrypt_compare env apiKey_ (api_key row) with
                 | inl fault => Throw fault
                 | inr verdict => Return verdict
                 end
             end
         end;
       final := w; events := [AuthQuery i] |}.
Proof.
  unfold PostgresCredentialRepository.validateApiKey, try_catch, bind,
    PostgresCredentialRepository.select_where_id,
    PostgresCredentialRepository.compare.
  destruct (auth_fault env i) as [fault|]; simpl; [reflexivity|].
  destruct (PostgresCredentialRepository.where_id i (credentials w))
    as [|row rest]; simpl; [reflexivity|].
  destruct (bcrypt_compare env apiKey_ (api_key row)); reflexivity.
Qed.

Lemma key_middleware_guards header required invalid failed :
  guards header (key_middleware header required invalid failed).
Proof.
  intros env req w o. subst o. unfold key_middleware.
  destruct (header req) as [[key|l]|] eqn:Hh.
  2,3: simpl; split; [reflexivity|]; right;
       eexists; split; [reflexivity|]; split; [refuse|];
       split; [|left; reflexivity];
       intros c (k & row & rest & E & _); congruence.
  destruct (String.eqb_spec key "") as [-> | Hk].
  { simpl. split; [reflexivity|]. right.
    eexists. split; [reflexivity|]. split; [refuse|].
    split; [|left; reflexivity].
    intros c (k & row & rest & E & Hne & _). congruence. }
  destruct (body_credentialId req) as [credentialId|] eqn:Hb; simpl.
  2: { split; [reflexivity|]. right.
       eexists. split; [reflexivity|]. split; [refuse|].
       split; [|left; reflexivity].
       intros c (k & row & rest & _ & _ & E & _). congruence. }
  destruct (String.eqb_spec credentialId "") as [-> | Hc].
  { simpl. split; [reflexivity|]. right.
    eexists. split; [reflexivity|]. split; [refuse|].
    split; [|left; reflexivity].
    intros c (k & row & rest & _ & _ & E & Hne & _). congruence. }
  unfold try_catch, bind. rewrite validateApiKey_outcome.
  cbn [result final events].
  destruct (auth_fault env credentialId) as [fault|] eqn:Ha; simpl.
  { split; [reflexivity|]. right.
    eexists. split; [reflexivity|]. split; [refuse|].
    split; [|right; reflexivity].
    intros c (k & row & rest & _ & _ & E & _ & Ha' & _). congruence. }
  destruct (PostgresCredentialRepository.where_id credentialId (credentials w))
    as [|row rest] eqn:Hrows; simpl.
  { split; [reflexivity|]. right.
    eexists. split; [reflexivity|]. split; [refuse|].
    split; [|right; reflexivity].
    intros c (k & row & rest & _ & _ & E & _ & _ & Hr & _). congruence. }
  destruct (bcrypt_compare env key (api_key row)) as [fault | [|]] eqn:Hbc; simpl.
  - split; [reflexivity|]. right.
    eexists. split; [reflexivity|]. split; [refuse|].
    split; [|right; reflexivity].
    intros c (k & row' & rest' & E1 & _ & E2 & _ & _ & Hr & Hb'). congruence.
  - split; [reflexivity|]. left. exists credentialId.
    split; [reflexivity|]. split; [|reflexivity].
    exists key, row, rest. auto 10.
  - split; [reflexivity|]. right.
    eexists. split; [reflexivity|]. split; [refuse|].
    split; [|right; reflexivity].
    intros c (k & row' & rest' & E1 & _ & E2 & _ & _ & Hr & Hb'). congruence.
Qed.

Lemma serviceAuth_vouched http req w :
  let o := auth.serviceAuth http req w in
  final o = w /\ events o = [] /\
  ((exists data,
       result o = Return (Next (auth.with_service data req)) /\ vouched http req data) \/
   (exists response,
       result o = Return (Responded response) /\
       refusal [401; 500] response /\
       forall data, ~ vouched http req data)).
Proof.
  intros o. subst o. unfold auth.serviceAuth.
  destruct (x_api_key req) as [apiKey|] eqn:Hk.
  2: { simpl. split; [reflexivity|]. split; [reflexivity|]. right.
       eexists. split; [reflexivity|]. split; [refuse|].
       intros data (a & s & E & _). congruence. }
  destruct (x_service_name req) as [serviceName|] eqn:Hs.
  2: { simpl. split; [reflexivity|]. split; [reflexivity|]. right.
       eexists. split; [reflexivity|]. split; [refuse|].
       intros data (a & s & _ & E & _). congruence. }
  destruct (falsy_header (Some apiKey) || falsy_header (Some serviceName)) eqn:Hf.
  { split; [reflexivity|]. split; [reflexivity|]. right.
    eexists. split; [reflexivity|]. split; [refuse|].
    intros data (a & s & E1 & E2 & F1 & F2 & _).
    rewrite Hk in E1. rewrite Hs in E2. inversion E1; inversion E2; subst.
    rewrite F1, F2 in Hf. discriminate. }
  apply orb_false_iff in Hf. destruct Hf as [F1 F2].
  destruct (auth_service http apiKey serviceName) as [failure | data] eqn:Ha.
  - assert (Hno : forall data, ~ vouched http req data).
    { intros data (a & s & E1 & E2 & _ & _ & E).
      rewrite Hk in E1. rewrite Hs in E2. inversion E1; inversion E2; subst.
      congruence. }
    destruct (isAxiosError failure &&
              match response_status failure with
              | Some code => Nat.eqb code 401
              | None => false
              end).
    all: split; [reflexivity|]; split; [reflexivity|]; right.
    all: eexists; split; [reflexivity|]; split; [refuse | assumption].
  - split; [reflexivity|]. split; [reflexivity|]. left. exists data.
    split; [reflexivity|]. exists apiKey, serviceName. auto.
Qed.

Lemma and_then_next first rest w req :
  result (first w) = Return (Next req) ->
  email_routes.and_then first rest w
  = {| result := result (rest req (final (first w)));
       final := final (rest req (final (first w)));
       events := events (first w) ++ events (rest req (final (first w))) |}.
Proof.
  intros Hr. unfold email_routes.and_then, bind. rewrite Hr. reflexivity.
Qed.

Lemma and_then_responded first rest w response :
  result (first w) = Return (Responded response) ->
  email_routes.and_then first rest w
  = {| result := Return response; final := final (first w);
       events := events (first w) |}.
Proof.
  intros Hr. unfold email_routes.and_then, bind. rewrite Hr. simpl.
  rewrite app_nil_r. reflexivity.
Qed.

(** A route behind the two middlewares either reaches its last handler,
    for a guarded request and in the world it started in, after one query
    for the credential, or answers 401, 400 or 500 without it. *)
Lemma behind_the_middlewares http env req w (handler : Request -> M Response) :
  let o := email_routes.and_then (auth.serviceAuth http req)
             (fun req => email_routes.and_then
                           (credentialAuth.validateApiKey env req) handler) w in
  (exists credentialId data,
      guarded http env w req credentialId /\
      let o' := handler (auth.with_service data req) w in
      result o = result o' /\ final o = final o' /\
      events o = AuthQuery credentialId :: events o') \/
  (exists response,
      result o = Return response /\
      refusal [400; 401; 500] response /\
      final o = w /\
      (forall credentialId, ~ guarded http env w req credentialId) /\
      (events o = [] \/
       events o = [AuthQuery (or_empty (body_credentialId req))])).
Proof.
  intros o. subst o.
  destruct (serviceAuth_vouched http req w)
    as (Hf & He & [(data & Hr & Hv) | (response & Hr & Hs & Hno)]).
  2: { rewrite (and_then_responded _ _ _ _ Hr), Hf, He. simpl.
       right. exists response. split; [reflexivity|].
       split; [destruct Hs; split; simpl in *; tauto|]. split; [reflexivity|].
       split; [|left; reflexivity].
       intros c [[data Hv] _]. exact (Hno data Hv). }
  rewrite (and_then_next _ _ _ _ Hr), Hf, He. simpl.
  destruct (key_middleware_guards x_credential_key
              "Credential API key is required" "Invalid credential API key"
              "Credential API key validation failed"
              env (auth.with_service data req) w)
    as (Hf' & [(c & Hr' & Hk & He') | (response & Hr' & Hs' & Hno & He')]).
  all: fold credentialAuth.validateApiKey in Hf', Hr', He'.
  - rewrite (and_then_next _ _ _ _ Hr'), Hf', He'. simpl.
    left. exists c, data. split; [split; eauto|]. auto.
  - rewrite (and_then_responded _ _ _ _ Hr'), Hf'. simpl.
    right. exists response. split; [reflexivity|]. split; [assumption|].
    split; [reflexivity|]. split.
    + intros c [_ Hk]. exact (Hno c Hk).
    + exact He'.
Qed.

Lemma send_handler_run sendEmail http env req w :
  falsy_string (body_credentialId req) = false ->
  let o := email_routes.send_handler sendEmail http env req w in
  (exists message,
      body_message req = Some message /\
      email_routes.emailMessageSchema http env message = true /\
      let sent := sendEmail env (or_empty (body_credentialId req)) message w in
      result o = Return (send_answer (result sent)) /\
      final o = final sent /\ events o = events sent) \/
  ((forall message,
       body_message req = Some message ->
       email_routes.emailMessageSchema http env message = false) /\
   exists body,
     o = {| result := Return {| status_code := 400; json_body := body |};
            final := w; events := [] |}).
Proof.
  intros Hc o. subst o. unfold email_routes.send_handler. rewrite Hc.
  destruct (body_message req) as [message|].
  2: { right. split; [discriminate|]. eexists. reflexivity. }
  destruct (email_routes.emailMessageSchema http env message) eqn:Hs.
  2: { right. split; [|eexists; reflexivity].
       intros m E. inversion E; subst. assumption. }
  left. exists message. split; [reflexivity|]. split; [assumption|].
  unfold try_catch, bind, negb.
  destruct (sendEmail env (or_empty (body_credentialId req)) message w)
    as [[[]|error] w' evs]; simpl.
  - rewrite app_nil_r. auto.
  - rewrite app_nil_r. auto.
Qed.

Lemma verify_handler_run verifyConnection env req w :
  falsy_string (body_credentialId req) = false ->
  let o := email_routes.verify_handler verifyConnection env req w in
  let verified := verifyConnection env (or_empty (body_credentialId req)) w in
  result o = Return (verify_answer (result verified)) /\
  final o = final verified /\ events o = events verified.
Proof.
  intros Hc o. subst o. unfold email_routes.verify_handler. rewrite Hc.
  unfold try_catch, bind.
  destruct (verifyConnection env (or_empty (body_credentialId req)) w)
    as [[b|error] w' evs]; simpl.
  - rewrite app_nil_r. auto.
  - rewrite app_nil_r. auto.
Qed.

Lemma key_accepted_truthy header env w req credentialId :
  key_accepted header env w req credentialId ->
  falsy_string (body_credentialId req) = false /\
  or_empty (body_credentialId req) = credentialId.
Proof.
  intros (key & row & rest & _ & _ & Hb & Hne & _). rewrite Hb. simpl.
  split; [|reflexivity].
  destruct (String.eqb_spec credentialId ""); congruence.
Qed.

Lemma post_send_run
    (sendEmail : Env -> string -> EmailMessage -> M unit) http env req w :
  let o := email_routes.post_send sendEmail http env req w in
  (exists credentialId message,
      servable http env w req credentialId message /\
      let sent := sendEmail env credentialId message w in
      result o = Return (send_answer (result sent)) /\
      final o = final sent /\
      events o = AuthQuery credentialId :: events sent) \/
  (turned_away w req o /\
   forall credentialId message, ~ servable http env w req credentialId message).
Proof.
  intros o. subst o. unfold email_routes.post_send.
  destruct (behind_the_middlewares http env req w
              (email_routes.send_handler sendEmail http env))
    as [(c & data & Hg & Hr & Hf & He) | (response & Hr & [Hs _] & Hf & Hno & He)].
  2: { right. split; [exists response; auto|].
       intros c m (Hg & _). exact (Hno c Hg). }
  destruct (key_accepted_truthy _ _ _ _ _ (proj2 Hg)) as [Ht Hc].
  destruct (send_handler_run sendEmail http env (auth.with_service data req) w Ht)
    as [(message & Hm & Hs & Hr' & Hf' & He') | (Hinvalid & body & Ho)].
  - left. exists c, message. simpl in Hr', Hf', He'. rewrite Hc in *.
    split; [split; [assumption|]; split; assumption|].
    split; [congruence|]. split; [congruence|]. rewrite He. congruence.
  - right. split.
    + rewrite Ho in *. simpl in *. eexists. split; [eassumption|].
      split; [simpl; tauto|]. split; [assumption|]. right. rewrite He, Hc.
      reflexivity.
    + intros c' m (_ & Hm & Hvalid). apply Hinvalid in Hm. congruence.
Qed.

Lemma schema_limits http env message :
  email_routes.emailMessageSchema http env message = true ->
  length (attachment_list message) <= 5 /\
  Forall (within_limits env) (attachment_list message) /\
  (falsy_string (text message) = false \/ falsy_string (html message) = false).
Proof.
  unfold email_routes.emailMessageSchema, attachment_list. intros H.
  apply andb_prop in H. destruct H as [H Hbody].
  apply andb_prop in H. destruct H as [_ Hatt].
  split; [|split].
  - destruct (attachments message) as [l|]; simpl; [|lia].
    apply andb_prop in Hatt. destruct Hatt as [_ Hn].
    apply Nat.leb_le in Hn. assumption.
  - destruct (attachments message) as [l|]; [|constructor].
    apply andb_prop in Hatt. destruct Hatt as [Hall _].
    rewrite forallb_forall in Hall. apply Forall_forall. intros a Ha.
    apply Hall in Ha. apply andb_prop in Ha. destruct Ha as [Hn Hc].
    split; [assumption|].
    unfold email_routes.content_ok in Hc.
    destruct (content a); [exact I|]. apply Z.leb_le. assumption.
  - apply orb_prop in Hbody. destruct Hbody as [Hb | Hb];
      apply negb_true_iff in Hb; auto.
Qed.

Lemma verifyConnection_true env credentialId w :
  result (verifyConnection env credentialId w) = Return true ->
  exists c,
    stored (credentials w) credentialId = Some c /\ smtp_usable c /\
    smtp_verify env (transport_options c) = None.
Proof.
  invert_call (verifyConnection env credentialId) w.
  all: open_hypotheses; subst; try discriminate.
  intros _. exists x. unfold smtp_usable. tauto.
Qed.

(** X14: each of the two [validateApiKey] middlewares calls [next()], with
    the request as it got it, exactly when the request carries one nonempty
    key in its header and a credential ID in its body, the auth database
    answers, and bcrypt accepts the key for the stored hash of that ID;
    otherwise it answers 400, 401 or 500 with an error text.  It never
    throws, asks the database at most once, and leaves the world as it
    was. *)
Theorem X14_the_key_middlewares_guard_the_routes :
  guards x_credential_key credentialAuth.validateApiKey /\
  guards x_api_key auth.validateApiKey.
Proof. split; apply key_middleware_guards. Qed.

(** X15: [serviceAuth] calls [next()] exactly when both headers are there
    and the auth service answers the verification; the request it hands on
    is the one it got with [service] set to that answer.  Otherwise it
    answers 401 or 500 with an error text.  It never throws and touches
    neither the databases nor the mail transports. *)
Theorem X15_serviceAuth_lets_through_whom_the_auth_service_accepts http req w :
  let o := auth.serviceAuth http req w in
  final o = w /\ events o = [] /\
  ((exists data,
       result o = Return (Next (auth.with_service data req)) /\ vouched http req data) \/
   (exists response,
       result o = Return (Responded response) /\
       refusal [401; 500] response /\
       forall data, ~ vouched http req data)).
Proof. apply serviceAuth_vouched. Qed.

(** X16: POST /send calls [sendEmail] exactly for the requests that pass
    both middlewares and carry a message the schema accepts.  Such a
    request is served: [sendEmail] is called with the credential ID and the
    message of the body, in the world the request found, and the answer is
    200 when it returns and 500 with the text of the error when it throws.
    A request that is not of this kind is never served: it is answered
    with 400, 401 or 500 and leaves the world as it was.  This holds for
    whatever service the route is wired to. *)
Theorem X16_post_send_calls_the_service_for_guarded_valid_requests
    (sendEmail : Env -> string -> EmailMessage -> M unit) http env req w :
  let o := email_routes.post_send sendEmail http env req w in
  (exists credentialId message,
      servable http env w req credentialId message /\
      let sent := sendEmail env credentialId message w in
      result o = Return (send_answer (result sent)) /\
      final o = final sent /\
      events o = AuthQuery credentialId :: events sent) \/
  (turned_away w req o /\
   forall credentialId message, ~ servable http env w req credentialId message).
Proof. apply post_send_run. Qed.

(** X17: end to end for the SMTP service: a 200 of POST /send means that
    the request passed both middlewares and that the outbox holds one more
    row, with status sent, for the credential, recipient and subject of the
    body, and one attachment row for each attachment; there are at most
    five of them, none has a path separator or [..] in its file name, each
    that came as base64 decodes to at most 10 MiB, and the message has a
    text or an html body. *)
Theorem X17_a_200_of_the_smtp_route_is_a_sent_row_within_the_limits
    http env req w response :
  let o := email_routes.post_send Smtp.sendEmail http env req w in
  result o = Return response ->
  status_code response = 200 ->
  exists credentialId message row,
    guarded http env w req credentialId /\
    body_message req = Some message /\
    outgoing_messages (persisted (final o))
    = outgoing_messages (persisted w) ++ [row] /\
    credential_id row = credentialId /\ recipient row = to message /\
    om_subject row = subject message /\ status row = "sent" /\
    message_attachments (persisted (final o))
    = message_attachments (persisted w) ++
      map (Smtp.attachment_row env (om_id row)) (attachment_list message) /\
    length (attachment_list message) <= 5 /\
    Forall (within_limits env) (attachment_list message) /\
    (falsy_string (text message) = false \/ falsy_string (html message) = false).
Proof.
  intros o Hr H200. subst o.
  destruct (post_send_run Smtp.sendEmail http env req w)
    as [ (c & message & (Hg & Hm & Hs) & Hr' & Hf & _)
       | [(response' & Hr' & Hin & _) _] ].
  2: { rewrite Hr in Hr'. inversion Hr'; subst response'.
       rewrite H200 in Hin. simpl in Hin.
       destruct Hin as [E | [E | [E | []]]]; discriminate. }
  rewrite Hr in Hr'. inversion Hr' as [Hresp].
  destruct (result (Smtp.sendEmail env c message w)) as [[]|error] eqn:Hsent;
    [|rewrite Hresp in H200; discriminate].
  destruct (Smtp_success env w c message Hsent) as [Hp _].
  destruct (schema_limits http env message Hs) as (Hn & Hl & Hb).
  exists c, message. eexists.
  split; [assumption|]. split; [assumption|].
  rewrite Hf, Hp. simpl.
  do 6 (split; [reflexivity|]). auto.
Qed.

Lemma X17_witness :
  exists row,
    outgoing_messages
      (persisted
         (final (email_routes.post_send Smtp.sendEmail http_ok env_ok
                   request_smtp world0)))
    = [row] /\
    credential_id row = "smtp-1" /\ status row = "sent".
Proof.
  destruct (X17_a_200_of_the_smtp_route_is_a_sent_row_within_the_limits
              http_ok env_ok request_smtp world0
              {| status_code := 200;
                 json_body := message_json "Email sent successfully" |}
              eq_refl eq_refl)
    as (c & message & row & Hg & _ & Hm & Hc & _ & _ & Hs & _).
  exists row. split; [exact Hm|]. split; [|exact Hs].
  destruct Hg as [_ (key & r & rest & _ & _ & Hb & _)].
  simpl in Hb. inversion Hb as [Hid]. rewrite Hid. exact Hc.
Defined.

(** X18: end to end for the Zoho service: POST /send always answers, with
    200, 400, 401 or 500; a 200 comes with exactly one more row, with status
    sent, and every other answer leaves the committed outbox as it was. *)
Theorem X18_the_zoho_route_records_exactly_the_200s http env req w :
  let o := email_routes.post_send Zoho.sendEmail http env req w in
  exists response,
    result o = Return response /\
    In (status_code response) [200; 400; 401; 500] /\
    match Nat.eqb (status_code response) 200 with
    | true =>
        exists credentialId message,
          guarded http env w req credentialId /\
          body_message req = Some message /\
          persisted (final o) = zoho_recorded w credentialId message
    | false => persisted (final o) = persisted w
    end.
Proof.
  intros o. subst o.
  destruct (post_send_run Zoho.sendEmail http env req w)
    as [ (c & message & (Hg & Hm & Hs) & Hr & Hf & _)
       | [(response & Hr & Hin & Hf & _) _] ].
  2: { exists response. split; [assumption|]. split; [simpl in *; tauto|].
       simpl in Hin. destruct Hin as [E | [E | [E | []]]]; rewrite <- E; simpl;
         rewrite Hf; reflexivity. }
  eexists. split; [eassumption|]. rewrite Hf.
  destruct (result (Zoho.sendEmail env c message w)) as [[]|error] eqn:Hsent; simpl.
  - split; [tauto|]. exists c, message. split; [assumption|]. split; [assumption|].
    apply Zoho_success. assumption.
  - split; [tauto|]. eapply Zoho_failure_rolled_back. eassumption.
Qed.

(** X19: POST /verify always answers, with 200, 400, 401 or 500, and it
    leaves the world as it was and issues nothing on the contact database.
    It never answers [valid: false]: a 200 says [valid: true], and comes
    only for a request that passed both middlewares and names an email
    credential with a host and a port, whose server accepted the
    handshake; the secure flag of the credential may be NULL. *)
Theorem X19_post_verify_changes_nothing_and_never_says_invalid http env req w :
  let o := email_routes.post_verify verifyConnection http env req w in
  final o = w /\
  existsb is_outbox (events o) = false /\
  exists response,
    result o = Return response /\
    In (status_code response) [200; 400; 401; 500] /\
    json_body response <> valid_json false /\
    (status_code response = 200 ->
     json_body response = valid_json true /\
     exists credentialId c,
       guarded http env w req credentialId /\
       stored (credentials w) credentialId = Some c /\
       type c = email /\ falsy_string (host c) = false /\
       falsy_number (port c) = false /\
       smtp_verify env (transport_options c) = None).
Proof.
  intros o. subst o. unfold email_routes.post_verify.
  destruct (behind_the_middlewares http env req w
              (email_routes.verify_handler verifyConnection env))
    as [(c & data & Hg & Hr & Hf & He)
       | (response & Hr & [Hs [error Hj]] & Hf & _ & He)].
  2: { split; [assumption|]. split.
       { destruct He as [-> | ->]; reflexivity. }
       exists response. split; [assumption|]. split; [simpl in *; tauto|].
       split; [congruence|].
       intros E. rewrite E in Hs. destruct Hs as [Hs | [Hs | [Hs | []]]];
         discriminate. }
  destruct (key_accepted_truthy _ _ _ _ _ (proj2 Hg)) as [Ht Hc].
  destruct (verify_handler_run verifyConnection env (auth.with_service data req) w Ht)
    as (Hr' & Hf' & He').
  simpl in Hr', Hf', He'. rewrite Hc in *.
  destruct (verifyConnection_frame env c w) as [Hw Hq].
  split; [congruence|]. split.
  { rewrite He, He'. simpl. assumption. }
  eexists. split; [rewrite Hr, Hr'; reflexivity|].
  pose proof (verifyConnection_never_false env c w) as Hnf.
  pose proof (verifyConnection_true env c w) as Htrue.
  destruct (result (verifyConnection env c w)) as [[|]|error]; simpl.
  - split; [tauto|]. split; [discriminate|]. intros _. split; [reflexivity|].
    destruct (Htrue eq_refl) as (cr & H1 & (Ht' & Hh & Hp & _) & H3).
    exists c, cr. auto 7.
  - congruence.
  - split; [tauto|]. split; [discriminate|]. discriminate.
Qed.

Lemma append_cons a s post :
  (String a s ++ post)%string = String a (s ++ post).
Proof. reflexivity. Qed.

Lemma prefix_app needle s :
  String.prefix needle s = true <-> exists post, s = (needle ++ post)%string.
Proof.
  revert s. induction needle as [|a needle IH]; intros s.
  - split; [intros _; exists s; reflexivity | destruct s; reflexivity].
  - destruct s as [|b s]; simpl.
    + split; [discriminate | intros [post E]; discriminate].
    + destruct (Ascii.ascii_dec a b) as [<- | Hab].
      * rewrite IH. split; intros [post E]; exists post.
        -- rewrite append_cons. congruence.
        -- rewrite append_cons in E. congruence.
      * split; [discriminate|]. intros [post E].
        rewrite append_cons in E. congruence.
Qed.

Lemma includes_substring needle s :
  includes needle s = true <-> exists pre post, s = (pre ++ needle ++ post)%string.
Proof.
  induction s as [|b s IH].
  - change (includes needle "") with (String.prefix needle "" || false).
    rewrite orb_false_r, prefix_app. split.
    + intros [post E]. exists "", post. assumption.
    + intros (pre & post & E). destruct pre as [|a pre].
      * eauto.
      * discriminate.
  - change (includes needle (String b s))
      with (String.prefix needle (String b s) || includes needle s).
    rewrite orb_true_iff, prefix_app, IH. split.
    + intros [[post E] | (pre & post & E)].
      * exists "", post. assumption.
      * exists (String b pre), post. rewrite append_cons. congruence.
    + intros (pre & post & E). destruct pre as [|a pre].
      * left. eauto.
      * right. exists pre, post. rewrite append_cons in E. congruence.
Qed.

(** X20: a file name that the schema accepts holds no slash, no backslash
    and no two dots in a row, wherever in the name. *)
Theorem X20_an_accepted_file_name_names_no_directory name_ pre post :
  email_routes.safe_filename name_ = true ->
  (name_ <> pre ++ "/" ++ post /\ name_ <> pre ++ "\" ++ post /\
   name_ <> pre ++ ".." ++ post)%string.
Proof.
  unfold email_routes.safe_filename. intros H.
  apply andb_prop in H. destruct H as [H Hb].
  apply andb_prop in H. destruct H as [Hd Hs].
  apply negb_true_iff in Hb, Hd, Hs.
  repeat split; intros E.
  - assert (Hi : includes "/" name_ = true) by (apply includes_substring; eauto).
    congruence.
  - assert (Hi : includes "\" name_ = true) by (apply includes_substring; eauto).
    congruence.
  - assert (Hi : includes ".." name_ = true) by (apply includes_substring; eauto).
    congruence.
Qed.

Lemma X20_witness :
  ("terms.pdf" <> "terms" ++ "/" ++ "pdf" /\ "terms.pdf" <> "terms" ++ "\" ++ "pdf" /\
   "terms.pdf" <> "terms" ++ ".." ++ "pdf")%string.
Proof.
  apply (X20_an_accepted_file_name_names_no_directory "terms.pdf" "terms" "pdf").
  reflexivity.
Defined.
